(** * transcribe.py: output normalisation, batch orchestration, result writing

    A shallow embedding of the parts of [transcribe.py] that turn the raw
    output of the whisper.cpp process into transcript text, sequence the
    per-file transcriptions and write the results.

    Python [str] values are sequences of Unicode code points; they are
    modelled as lists of code points ([N]).  What the program observes of
    the outside (the engine process, the file system) is a record of
    functions, [Env]; what it changes is a record, [World], threaded through
    a state-and-exception monad. *)

From Stdlib Require Import Strings.String Strings.Ascii Numbers.DecimalString.
From Stdlib Require Import NArith ZArith Bool Arith Lia List.
Import ListNotations.

Local Open Scope list_scope.

(* ===================================================================== *)
(** ** Python strings *)
(* ===================================================================== *)

Module PyStr.

Definition char := N.
Definition str := list char.

(** An ASCII literal as a Python string. *)
Definition py (s : string) : str :=
  map N_of_ascii (list_ascii_of_string s).

Definition str_eqb (a b : str) : bool :=
  if list_eq_dec N.eq_dec a b then true else false.

(** [s.startswith(p)] *)
Fixpoint startswith (s p : str) {struct p} : bool :=
  match p with
  | [] => true
  | a :: p' =>
      match s with
      | [] => false
      | b :: s' => N.eqb b a && startswith s' p'
      end
  end.

(** [s.startswith(ps)] for a tuple [ps] of prefixes. *)
Definition startswith_any (s : str) (ps : list str) : bool :=
  existsb (startswith s) ps.

(** [sub in s] *)
Fixpoint contains (s sub : str) {struct s} : bool :=
  startswith s sub ||
  match s with
  | [] => false
  | _ :: s' => contains s' sub
  end.

(** The found case of [s.partition(sep)]: the text before and the text
    after the leftmost occurrence of [sep]. *)
Fixpoint partition (s sep : str) {struct s} : option (str * str) :=
  if startswith s sep then Some ([], skipn (length sep) s)
  else
    match s with
    | [] => None
    | c :: s' =>
        match partition s' sep with
        | Some (a, b) => Some (c :: a, b)
        | None => None
        end
    end.

(** [s.split(sep)] for a non-empty [sep] (Python raises [ValueError] on an
    empty separator; every call site passes a non-empty literal).  Each
    round consumes at least one character, so [length s] rounds suffice. *)
Fixpoint split_fuel (n : nat) (s sep : str) : list str :=
  match n with
  | O => [s]
  | S n' =>
      match partition s sep with
      | None => [s]
      | Some (a, b) => a :: split_fuel n' b sep
      end
  end.

Definition split (s sep : str) : list str :=
  split_fuel (length s) s sep.

(** [sep.join(l)] *)
Fixpoint join (sep : str) (l : list str) : str :=
  match l with
  | [] => []
  | x :: rest =>
      match rest with
      | [] => x
      | _ :: _ => x ++ sep ++ join sep rest
      end
  end.

(** The code points [str.strip()] removes: CPython's
    [_PyUnicode_IsWhitespace]. *)
Definition isspace (c : char) : bool :=
  (((9 <=? c) && (c <=? 13)) || ((28 <=? c) && (c <=? 32)) ||
   (c =? 133) || (c =? 160) || (c =? 5760) ||
   ((8192 <=? c) && (c <=? 8202)) ||
   (c =? 8232) || (c =? 8233) || (c =? 8239) || (c =? 8287) ||
   (c =? 12288))%N.

Fixpoint lstrip (s : str) : str :=
  match s with
  | [] => []
  | c :: s' => if isspace c then lstrip s' else s
  end.

Definition rstrip (s : str) : str := rev (lstrip (rev s)).

Definition strip (s : str) : str := rstrip (lstrip s).

(** [str.lower()], code point by code point.  The ASCII letters are mapped
    exactly, and so are the two non-ASCII code points whose lower-case form
    contains an ASCII letter (U+0130, U+212A).  Every other non-ASCII code
    point lowers to non-ASCII code points and is left as it is: the program
    only compares lowered text with ASCII text (a search for an ASCII needle,
    membership in a set of ASCII extensions), which cannot tell the two
    apart. *)
Definition lower_char (c : char) : str :=
  (if (65 <=? c) && (c <=? 90) then [c + 32]
   else if c =? 304 then [105; 775]
   else if c =? 8490 then [107]
   else [c])%N.

Definition lower (s : str) : str := flat_map lower_char s.

(** Truthiness of a string: [if s:]. *)
Definition truthy (s : str) : bool :=
  match s with [] => false | _ :: _ => true end.

(** [str(n)] for an integer. *)
Definition str_of_Z (n : Z) : str :=
  py (NilZero.string_of_int (Z.to_int n)).

End PyStr.
Import PyStr.

Definition NL : str := py "
".

(* ===================================================================== *)
(** ** The output normaliser ([transcribe_file], after the process ran) *)
(* ===================================================================== *)

Definition log_prefixes : list str :=
  [py "whisper_"; py "ggml_"; py "main:"; py "output_";
   py "log_mel_spectrogram"; py "encode_fallback"].

Definition progress_string_marker : str :=
  py "whisper_print_progress_callback".

(** The [for line in lines] loop; [transcript_lines] is the list being
    appended to. *)
Fixpoint transcript_loop (lines transcript_lines : list str) : list str :=
  match lines with
  | [] => transcript_lines
  | line :: rest =>
      if startswith_any (strip line) log_prefixes
      then transcript_loop rest transcript_lines
      else
        let cleaned_line := hd [] (split line progress_string_marker) in
        if truthy (strip cleaned_line)
        then transcript_loop rest (transcript_lines ++ [cleaned_line])
        else transcript_loop rest transcript_lines
  end.

(** [text], as computed from [output_capture]. *)
Definition transcript_text (output_capture : str) : str :=
  let lines := split (strip output_capture) NL in
  strip (join NL (transcript_loop lines [])).

Definition language_marker : str := py "detected language:".

(** The [for line in output_capture.split('\n')] loop with its [break]. *)
Fixpoint language_loop (lines : list str) (language : str) : str :=
  match lines with
  | [] => language
  | line :: rest =>
      if contains (lower line) language_marker
      then strip (last (split line (py ":")) [])
      else language_loop rest language
  end.

(** [language], as computed from [output_capture]. *)
Definition detected_language (output_capture : str) : str :=
  let language := py "unknown" in
  if contains (lower output_capture) language_marker
  then language_loop (split output_capture NL) language
  else language.

(* ===================================================================== *)
(** ** Exceptions *)
(* ===================================================================== *)

(** The exception classes the program raises or lets through, each with the
    text [str(e)] gives. *)
Inductive exn : Type :=
| FileNotFoundError (msg : str)
| ValueError (msg : str)
| TypeError (msg : str)
| OSError (msg : str)
| TranscriptionError (msg : str).

Definition str_of_exn (e : exn) : str :=
  match e with
  | FileNotFoundError msg | ValueError msg | TypeError msg
  | OSError msg | TranscriptionError msg => msg
  end.

(* ===================================================================== *)
(** ** Paths ([pathlib.Path], POSIX flavour) *)
(* ===================================================================== *)

Module PyPath.

(** A parsed path: the root ("", "/" or "//") and the components after
    it. *)
Record Path : Type := mkPath { root : str; tail : list str }.

Definition Path_eq_dec (p q : Path) : {p = q} + {p <> q}.
Proof.
  decide equality; [apply (list_eq_dec (list_eq_dec N.eq_dec))
                   |apply (list_eq_dec N.eq_dec)].
Defined.

(** The components of the text after the root: empty ones and "." are
    dropped. *)
Definition components (rel : str) : list str :=
  filter (fun x => truthy x && negb (str_eqb x (py ".")))
         (split rel (py "/")).

(** [Path(s)]: exactly two leading slashes are a root of their own. *)
Definition Path_of_str (s : str) : Path :=
  if startswith s (py "///") then mkPath (py "/") (components s)
  else if startswith s (py "//") then mkPath (py "//") (components s)
  else if startswith s (py "/") then mkPath (py "/") (components s)
  else mkPath [] (components s).

(** [str(p)] *)
Definition str_of_Path (p : Path) : str :=
  match root p, tail p with
  | [], [] => py "."
  | r, t => r ++ join (py "/") t
  end.

(** [p.name] *)
Definition name (p : Path) : str := last (tail p) [].

(** [s.rfind(c)] for a character [c]; [None] stands for -1. *)
Fixpoint rfind_char (c : char) (s : str) : option nat :=
  match s with
  | [] => None
  | x :: s' =>
      match rfind_char c s' with
      | Some i => Some (S i)
      | None => if N.eqb x c then Some 0 else None
      end
  end.

(** [p.suffix]: from the last dot of the name on, unless that dot is the
    first or the last character. *)
Definition suffix (p : Path) : str :=
  let nm := name p in
  match rfind_char 46%N nm with
  | Some i => if (0 <? i) && (i <? length nm - 1) then skipn i nm else []
  | None => []
  end.

(** [p.stem] *)
Definition stem (p : Path) : str :=
  let nm := name p in
  match rfind_char 46%N nm with
  | Some i => if (0 <? i) && (i <? length nm - 1) then firstn i nm else nm
  | None => nm
  end.

(** [p.parent] *)
Definition parent (p : Path) : Path := mkPath (root p) (removelast (tail p)).

(** [p / s] for a string [s]: a rooted [s] replaces [p]. *)
Definition truediv (p : Path) (s : str) : Path :=
  let q := Path_of_str s in
  if truthy (root q) then q else mkPath (root p) (tail p ++ tail q).

(** [p.with_suffix(sfx)] (the texts of its errors are abbreviated). *)
Definition with_suffix (p : Path) (sfx : str) : exn + Path :=
  if contains sfx (py "/") then inl (ValueError (py "Invalid suffix"))
  else if (truthy sfx && negb (startswith sfx (py "."))) || str_eqb sfx (py ".")
  then inl (ValueError (py "Invalid suffix"))
  else
    let nm := name p in
    if negb (truthy nm) then inl (ValueError (py "path has an empty name"))
    else
      let old_suffix := suffix p in
      let nm' :=
        if negb (truthy old_suffix) then nm ++ sfx
        else firstn (length nm - length old_suffix) nm ++ sfx in
      inr (mkPath (root p) (removelast (tail p) ++ [nm'])).

End PyPath.
Import PyPath.

(* ===================================================================== *)
(** ** FileManager *)
(* ===================================================================== *)

(** What the program observes of the machine it runs on: the file system as
    the validation sees it, what the whisper-cli process does for an input
    file, and whether a file can be opened for writing.

    [Completed] is a process that was started, ran to its end, and whose
    output was decoded to text.  The runs where [subprocess] raises instead
    (the program cannot be executed, the output is not text) are modelled
    in [EngineFaults] below. *)
Record Completed : Type :=
  mkCompleted { returncode : Z; proc_stdout : str; proc_stderr : str }.

Record Env : Type := mkEnv {
  path_exists : Path -> bool;            (* path.exists() *)
  path_is_file : Path -> bool;           (* path.is_file() *)
  access_R_OK : Path -> bool;            (* os.access(path, os.R_OK) *)
  (* the process run for an input file, with the timestamps and verbose
     flags, once started and decoded; in verbose mode stderr is merged into
     stdout *)
  run_whisper : Path -> bool -> bool -> Completed;
  (* [open(path, 'w')]: [Some msg] when it raises OSError *)
  open_error : Path -> option str
}.

(** The set literal; its order only shows in an error message, where the
    iteration order of a Python set is unspecified. *)
Definition SUPPORTED_EXTENSIONS : list str :=
  [py ".mp3"; py ".wav"; py ".m4a"; py ".flac"; py ".ogg"; py ".wma"].

(** Truthiness of an [Optional[str]]. *)
Definition opt_truthy (o : option str) : bool :=
  match o with Some s => truthy s | None => false end.

Definition opt_str (o : option str) : str :=
  match o with Some s => s | None => [] end.

Section FileManager.

Variable env : Env.

(** The body of the loop of [validate_input_files]. *)
Definition validate_one (file_path : str) : exn + Path :=
  let path := Path_of_str file_path in
  if negb (path_exists env path)
  then inl (FileNotFoundError (py "File not found: " ++ file_path))
  else if negb (path_is_file env path)
  then inl (ValueError (py "Path is not a file: " ++ file_path))
  else if negb (existsb (str_eqb (lower (suffix path))) SUPPORTED_EXTENSIONS)
  then inl (ValueError
              (py "Unsupported file format: " ++ suffix path ++
               py ". Supported formats: " ++
               join (py ", ") SUPPORTED_EXTENSIONS))
  else if negb (access_R_OK env path)
  then inl (ValueError (py "File is not readable: " ++ file_path))
  else inr path.

Fixpoint validate_loop (file_paths : list str) (validated_files : list Path)
  : exn + list Path :=
  match file_paths with
  | [] => inr validated_files
  | file_path :: rest =>
      match validate_one file_path with
      | inl e => inl e
      | inr path => validate_loop rest (validated_files ++ [path])
      end
  end.

Definition validate_input_files (file_paths : list str) : exn + list Path :=
  validate_loop file_paths [].

End FileManager.

Definition generate_output_path (input_path : Path)
    (custom_output model_name : option str) (include_timestamps : bool)
  : exn + Path :=
  if opt_truthy custom_output then inr (Path_of_str (opt_str custom_output))
  else
    let stem := stem input_path in
    let suffixes :=
      (if opt_truthy model_name then [opt_str model_name] else []) ++
      (if include_timestamps then [py "timestamps"] else []) in
    match suffixes with
    | _ :: _ =>
        let suffix_str := py "-" ++ join (py "-") suffixes in
        inr (truediv (parent input_path) (stem ++ suffix_str ++ py ".txt"))
    | [] => with_suffix input_path (py ".txt")
    end.

(* ===================================================================== *)
(** ** The state the program changes, and a state-and-exception monad *)
(* ===================================================================== *)

(** Files written by the result writer, what the result writer printed on
    stdout and what was printed on stderr (one entry for each call of
    [print]), and the input files a transcription process was started for,
    in order.  The progress messages of [transcribe_file] and
    [process_files], which print sizes and wall-clock durations, are not
    part of the model; neither is the [duration] entry of a result, nor the
    [whisper-cli --help] process that [transcribe_file] runs before each
    transcription on a host with CUDA, whose only effect is one more flag
    on the command line. *)
Record World : Type := mkWorld {
  files : Path -> option str;
  stdout : list str;
  stderr : list str;
  launched : list Path
}.

Definition M (A : Type) : Type := World -> World * (exn + A).

Definition ret {A} (a : A) : M A := fun w => (w, inr a).

Definition raise {A} (e : exn) : M A := fun w => (w, inl e).

Definition bind {A B} (m : M A) (k : A -> M B) : M B :=
  fun w =>
    match m w with
    | (w', inr a) => k a w'
    | (w', inl e) => (w', inl e)
    end.

(** [try: m except Exception as e: h e] *)
Definition try_except {A} (m : M A) (h : exn -> M A) : M A :=
  fun w =>
    match m w with
    | (w', inr a) => (w', inr a)
    | (w', inl e) => h e w'
    end.

Definition lift {A} (r : exn + A) : M A := fun w => (w, r).

Notation "x <- m ;; k" := (bind m (fun x => k))
  (at level 61, m at next level, right associativity).
Notation "m ;;; k" := (bind m (fun _ => k))
  (at level 61, right associativity).

Definition print (line : str) : M unit :=
  fun w => (mkWorld (files w) (stdout w ++ [line]) (stderr w) (launched w),
            inr tt).

Definition print_stderr (line : str) : M unit :=
  fun w => (mkWorld (files w) (stdout w) (stderr w ++ [line]) (launched w),
            inr tt).

Definition launch (input_path : Path) : M unit :=
  fun w => (mkWorld (files w) (stdout w) (stderr w)
                    (launched w ++ [input_path]), inr tt).

(** [with open(path, 'w') as f: f.write(content)], for the whole of what
    the block writes, taken as one step: either [open] raises and the file
    is untouched, or the file holds all that the block writes.  The source
    creates or truncates the file at [open] and writes afterwards; a write
    that raises after [open] has succeeded, which leaves a shorter file, is
    outside this definition. *)
Definition write_file (env : Env) (path : Path) (content : str) : M unit :=
  fun w =>
    match open_error env path with
    | Some msg => (w, inl (OSError msg))
    | None =>
        (mkWorld (fun q => if Path_eq_dec q path then Some content
                           else files w q)
                 (stdout w) (stderr w) (launched w), inr tt)
    end.

(* ===================================================================== *)
(** ** WhisperCppTranscriber.transcribe_file *)
(* ===================================================================== *)

Record TranscriptionConfig : Type := mkConfig {
  model_name : str;
  include_timestamps : bool;
  batch_mode : bool;
  custom_output : option str
}.

(** The dictionary a transcription returns, completed by [process_files]. *)
Record Result : Type := mkResult {
  text : str;
  language : str;
  input_file : Path;
  output_file : Path
}.

(** The message of the [TranscriptionError] raised for a
    [CalledProcessError] [e]. *)
Definition error_msg (e_returncode : Z) (e_output : str) : str :=
  py "whisper.cpp failed with return code " ++ str_of_Z e_returncode ++
  (if truthy e_output && truthy (strip e_output)
   then py ":" ++ NL ++ strip e_output else []).

(** [transcribe_file] for a run that is started and decoded: what is done
    with the exit status and the captured output.  [EngineFaults] repeats
    it with the exceptions of [subprocess]. *)
Definition transcribe_file (env : Env) (input_path : Path)
    (include_timestamps verbose : bool) : M (str * str) :=
  launch input_path ;;;
  let p := run_whisper env input_path include_timestamps verbose in
  (* verbose: the merged stream read line by line; otherwise
     [result.stdout + result.stderr] *)
  let output_capture :=
    if verbose then proc_stdout p else proc_stdout p ++ proc_stderr p in
  if negb (Z.eqb (returncode p) 0)
  then
    (* [CalledProcessError.output] is the captured stdout *)
    let e_output := if verbose then output_capture else proc_stdout p in
    raise (TranscriptionError (error_msg (returncode p) e_output))
  else
    ret (transcript_text output_capture, detected_language output_capture).

(* ===================================================================== *)
(** ** TranscriptionService *)
(* ===================================================================== *)

Section TranscriptionService.

Variable env : Env.
Variable config : TranscriptionConfig.
Variable verbose : bool.

(** The body of the [try] block of the loop of [process_files]. *)
Definition process_one (input_path : Path) : M Result :=
  r <- transcribe_file env input_path (include_timestamps config) verbose ;;
  out <- lift (generate_output_path input_path
                 (if negb (batch_mode config) then custom_output config
                  else None)
                 (Some (model_name config)) (include_timestamps config)) ;;
  ret (mkResult (fst r) (snd r) input_path out).

(** The loop of [process_files]: a [TranscriptionError] is printed on
    stderr, then re-raised unless in batch mode; any other exception
    passes through. *)
Fixpoint process_loop (validated_files : list Path) (results : list Result)
  : M (list Result) :=
  match validated_files with
  | [] => ret results
  | input_path :: rest =>
      fun w =>
        match process_one input_path w with
        | (w', inr result) => process_loop rest (results ++ [result]) w'
        | (w', inl (TranscriptionError msg)) =>
            (print_stderr (py "Error: " ++ msg) ;;;
             if negb (batch_mode config)
             then raise (TranscriptionError msg)
             else process_loop rest results) w'
        | (w', inl e) => (w', inl e)
        end
  end.

Definition process_files (input_files : list str) : M (list Result) :=
  validated_files <- lift (validate_input_files env input_files) ;;
  process_loop validated_files [].

(** The loop of [_save_individual_results]. *)
Fixpoint _save_individual_results (results : list Result) : M unit :=
  match results with
  | [] => ret tt
  | result :: rest =>
      try_except
        (if truthy (text result)
         then
           write_file env (output_file result) (text result ++ NL) ;;;
           print (py "Saved: " ++ str_of_Path (output_file result))
         else
           print (py "Warning: No text to save for " ++
                  str_of_Path (input_file result)))
        (fun e =>
           raise (TranscriptionError
                    (py "Failed to save " ++
                     str_of_Path (output_file result) ++ py ": " ++
                     str_of_exn e))) ;;;
      _save_individual_results rest
  end.

(** What the loop of [_save_concatenated_results] writes to the open file:
    [i] is the index of the first of [results], [n] is [len(results)] of
    the whole list, [content] what was written so far. *)
Fixpoint concatenated_loop (i n : nat) (results : list Result)
    (content : str) : str :=
  match results with
  | [] => content
  | result :: rest =>
      let content1 :=
        content ++ (py "=== " ++ name (input_file result) ++ py " ===" ++ NL) in
      let content2 := content1 ++ text result in
      let content3 := content2 ++ NL in
      let content4 :=
        if i <? n - 1
        then content3 ++ (NL ++ repeat 61%N 50 ++ NL ++ NL)
        else content3 in
      concatenated_loop (S i) n rest content4
  end.

Definition _save_concatenated_results (results : list Result) : M unit :=
  match custom_output config with
  | None => raise (TypeError (py "expected str, bytes or os.PathLike object"))
  | Some c =>
      let output_file := Path_of_str c in
      try_except
        (write_file env output_file
           (concatenated_loop 0 (length results) results []) ;;;
         print (py "Saved concatenated results: " ++ str_of_Path output_file))
        (fun e =>
           raise (TranscriptionError
                    (py "Failed to save concatenated results to " ++
                     str_of_Path output_file ++ py ": " ++ str_of_exn e)))
  end.

Definition save_results (results : list Result) : M unit :=
  match results with
  | [] => print (py "No results to save.")
  | _ :: _ =>
      try_except
        (if batch_mode config && opt_truthy (custom_output config)
         then _save_concatenated_results results
         else _save_individual_results results)
        (fun e =>
           raise (TranscriptionError
                    (py "Failed to save results: " ++ str_of_exn e)))
  end.

End TranscriptionService.

(* ===================================================================== *)
(** ** Engine runs that raise *)
(* ===================================================================== *)

(** [run_whisper] stands for a run that was started and whose output was
    decoded.  The calls that [transcribe_file] makes can also raise.
    [Popen] and [subprocess.run] raise [OSError] when the program cannot
    be executed.  On the silent path, [subprocess.run(..., text=True)]
    decodes the captured bytes strictly and raises [UnicodeDecodeError], a
    [ValueError], when they are not text; the verbose path opens the pipe
    with [errors='replace'] and reads the same bytes with replacement
    characters.  [transcribe_file] handles [CalledProcessError] alone and
    the loop of [process_files] handles [TranscriptionError] alone, so
    both exceptions pass through them.  This module repeats
    [transcribe_file] and the loop over runs of all three kinds. *)
Module EngineFaults.

(** A run of the engine for one input file. *)
Inductive Run : Type :=
| Exited (p : Completed)        (* started, ended, output decoded *)
| NotStarted (msg : str)        (* [OSError]: the program cannot be executed *)
| NotDecoded (msg : str) (replaced : Completed).
    (* started and ended, but the output is not text: [msg] is the text of
       the [UnicodeDecodeError] of the strict decoding, [replaced] the
       process as the verbose path reads it *)

Definition Engine : Type := Path -> bool -> bool -> Run.

(** [transcribe_file] from the completed process on. *)
Definition completed (p : Completed) (verbose : bool) : M (str * str) :=
  let output_capture :=
    if verbose then proc_stdout p else proc_stdout p ++ proc_stderr p in
  if negb (Z.eqb (returncode p) 0)
  then
    let e_output := if verbose then output_capture else proc_stdout p in
    raise (TranscriptionError (error_msg (returncode p) e_output))
  else
    ret (transcript_text output_capture, detected_language output_capture).

Definition transcribe_file (engine : Engine) (input_path : Path)
    (include_timestamps verbose : bool) : M (str * str) :=
  match engine input_path include_timestamps verbose with
  | NotStarted msg => raise (OSError msg)
  | Exited p => launch input_path ;;; completed p verbose
  | NotDecoded msg replaced =>
      launch input_path ;;;
      if verbose then completed replaced verbose else raise (ValueError msg)
  end.

Section TranscriptionService.

(** [env] serves the validation of the input files. *)
Variable env : Env.
Variable engine : Engine.
Variable config : TranscriptionConfig.
Variable verbose : bool.

Definition process_one (input_path : Path) : M Result :=
  r <- transcribe_file engine input_path (include_timestamps config) verbose ;;
  out <- lift (generate_output_path input_path
                 (if negb (batch_mode config) then custom_output config
                  else None)
                 (Some (model_name config)) (include_timestamps config)) ;;
  ret (mkResult (fst r) (snd r) input_path out).

Fixpoint process_loop (validated_files : list Path) (results : list Result)
  : M (list Result) :=
  match validated_files with
  | [] => ret results
  | input_path :: rest =>
      fun w =>
        match process_one input_path w with
        | (w', inr result) => process_loop rest (results ++ [result]) w'
        | (w', inl (TranscriptionError msg)) =>
            (print_stderr (py "Error: " ++ msg) ;;;
             if negb (batch_mode config)
             then raise (TranscriptionError msg)
             else process_loop rest results) w'
        | (w', inl e) => (w', inl e)
        end
  end.

Definition process_files (input_files : list str) : M (list Result) :=
  validated_files <- lift (validate_input_files env input_files) ;;
  process_loop validated_files [].

End TranscriptionService.

(** The engine of an [Env]: every run is started and decoded. *)
Definition engine_of (env : Env) : Engine :=
  fun input_path include_timestamps verbose =>
    Exited (run_whisper env input_path include_timestamps verbose).

End EngineFaults.

Example transcript_text_ex1 :
  transcript_text (py "whisper_init: x
 Hello world whisper_print_progress_callback: progress = 50%
main: done
 Bye
") = py "Hello world 
 Bye".
Proof. vm_compute. reflexivity. Qed.

Example detected_language_ex1 :
  detected_language (py "whisper_full: auto-detected language: EN (p = 0.9)
 hi") = py "EN (p = 0.9)".
Proof. vm_compute. reflexivity. Qed.

(* ===================================================================== *)
(** ** Facts about the string operations *)
(* ===================================================================== *)

Module StrFacts.

Definition all_space (w : str) : Prop := Forall (fun c => isspace c = true) w.

(** Splitting on a single character, by structural recursion; [split] with
    a one-character separator computes the same list ([split_single]). *)
Fixpoint split_char (c : char) (s : str) : list str :=
  match s with
  | [] => [[]]
  | x :: s' =>
      if N.eqb x c then [] :: split_char c s'
      else
        match split_char c s' with
        | l :: ls => (x :: l) :: ls
        | [] => [[x]]
        end
  end.

Lemma startswith_iff (s p : str) :
  startswith s p = true <-> exists t, s = p ++ t.
Proof.
  revert s; induction p as [|a p IH]; intros s; simpl.
  - split; [intros _; exists s; reflexivity | reflexivity].
  - destruct s as [|b s].
    + split; [discriminate | intros [t H]; discriminate].
    + rewrite andb_true_iff, N.eqb_eq, IH. split.
      * intros [-> [t ->]]. exists t; reflexivity.
      * intros [t H]. injection H as -> ->.
        split; [reflexivity | exists t; reflexivity].
Qed.

Lemma startswith_app (s t p : str) :
  startswith s p = true -> startswith (s ++ t) p = true.
Proof.
  rewrite !startswith_iff. intros [u ->]. exists (u ++ t).
  now rewrite app_assoc.
Qed.

Lemma startswith_nil_l (p : str) : p <> [] -> startswith [] p = false.
Proof. destruct p; [congruence | reflexivity]. Qed.

Lemma contains_iff (s sub : str) :
  contains s sub = true <-> exists a b, s = a ++ sub ++ b.
Proof.
  induction s as [|x s IH]; simpl.
  - rewrite orb_false_r, startswith_iff. split.
    + intros [t H]. exists [], t. exact H.
    + intros (a & b & H). destruct a; simpl in H; [|discriminate].
      exists b. exact H.
  - rewrite orb_true_iff, startswith_iff, IH. split.
    + intros [[t H] | (a & b & H)].
      * exists [], t. exact H.
      * exists (x :: a), b. simpl. now f_equal.
    + intros (a & b & H). destruct a as [|y a]; simpl in H.
      * left. exists b. exact H.
      * right. injection H as _ H. exists a, b. exact H.
Qed.

Lemma contains_false_infix (a l b sub : str) :
  contains (a ++ l ++ b) sub = false -> contains l sub = false.
Proof.
  intros H. destruct (contains l sub) eqn:E; [|reflexivity].
  apply contains_iff in E. destruct E as (u & v & ->).
  assert (contains (a ++ (u ++ sub ++ v) ++ b) sub = true) as H'.
  { apply contains_iff. exists (a ++ u), (v ++ b).
    now rewrite <- !app_assoc. }
  congruence.
Qed.

Lemma skipn_length_app {A} (p t : list A) : skipn (length p) (p ++ t) = t.
Proof. induction p; simpl; auto. Qed.

Lemma partition_eq (s sep : str) :
  partition s sep =
  if startswith s sep then Some ([], skipn (length sep) s)
  else
    match s with
    | [] => None
    | c :: s' =>
        match partition s' sep with
        | Some (a, b) => Some (c :: a, b)
        | None => None
        end
    end.
Proof. destruct s; reflexivity. Qed.

Lemma partition_some (s sep a b : str) :
  sep <> [] -> partition s sep = Some (a, b) ->
  s = a ++ sep ++ b /\ contains a sep = false.
Proof.
  intros Hsep. revert a. induction s as [|x s IH]; intros a;
    rewrite partition_eq.
  - rewrite startswith_nil_l by assumption. discriminate.
  - destruct (startswith (x :: s) sep) eqn:E.
    + intros H. injection H as <- <-.
      apply startswith_iff in E. destruct E as [t E]. rewrite E.
      rewrite skipn_length_app. split; [reflexivity|].
      simpl. now rewrite startswith_nil_l.
    + destruct (partition s sep) as [[a' b']|] eqn:P; [|discriminate].
      intros H. injection H as <- <-.
      destruct (IH a' eq_refl) as [-> Hc]. split; [reflexivity|].
      simpl. rewrite Hc, orb_false_r.
      destruct (startswith (x :: a') sep) eqn:E'; [|reflexivity].
      apply (startswith_app _ (sep ++ b')) in E'. simpl in E', E. congruence.
Qed.

Lemma partition_none (s sep : str) :
  partition s sep = None <-> contains s sep = false.
Proof.
  induction s as [|x s IH]; rewrite partition_eq; simpl contains.
  - destruct (startswith [] sep); simpl; split; congruence.
  - destruct (startswith (x :: s) sep); simpl.
    + split; discriminate.
    + rewrite <- IH. destruct (partition s sep) as [[a b]|];
        split; congruence.
Qed.

(** [s.split(sep)[0]] is the text before the first occurrence of [sep],
    or all of [s] when there is none. *)
Lemma hd_split (s sep : str) :
  hd [] (split s sep) =
  match partition s sep with
  | Some (a, _) => a
  | None => s
  end.
Proof.
  unfold split. destruct s as [|x s].
  - simpl. destruct (startswith [] sep); reflexivity.
  - cbn [length split_fuel].
    destruct (partition (x :: s) sep) as [[a b]|]; reflexivity.
Qed.

Lemma hd_split_no_sep (s sep : str) :
  sep <> [] -> contains (hd [] (split s sep)) sep = false.
Proof.
  intros Hsep. rewrite hd_split.
  destruct (partition s sep) as [[a b]|] eqn:P.
  - now apply partition_some in P.
  - now apply partition_none.
Qed.

Lemma hd_split_id (s sep : str) :
  contains s sep = false -> hd [] (split s sep) = s.
Proof.
  intros H. rewrite hd_split. apply partition_none in H. now rewrite H.
Qed.

Lemma hd_split_prefix (s sep : str) :
  exists t, s = hd [] (split s sep) ++ t.
Proof.
  rewrite hd_split. destruct (partition s sep) as [[a b]|] eqn:P.
  - destruct sep as [|c sep].
    + rewrite partition_eq in P. simpl in P. injection P as <- <-.
      exists s. reflexivity.
    + apply partition_some in P; [|discriminate].
      destruct P as [-> _]. eexists. reflexivity.
  - exists []. now rewrite app_nil_r.
Qed.

(** *** Splitting on one character *)

Lemma split_char_partition (c : char) (s : str) :
  split_char c s =
  match partition s [c] with
  | None => [s]
  | Some (a, b) => a :: split_char c b
  end.
Proof.
  induction s as [|x s IH]; [reflexivity|].
  rewrite partition_eq. simpl startswith. simpl split_char.
  rewrite andb_true_r. destruct (N.eqb x c); [reflexivity|].
  rewrite IH. destruct (partition s [c]) as [[a b]|]; reflexivity.
Qed.

Lemma partition_char_length (c : char) (s a b : str) :
  partition s [c] = Some (a, b) -> length b < length s.
Proof.
  intros P. apply partition_some in P; [|discriminate].
  destruct P as [-> _]. rewrite !length_app. simpl. lia.
Qed.

Lemma split_fuel_single (c : char) (n : nat) :
  forall s, length s <= n -> split_fuel n s [c] = split_char c s.
Proof.
  induction n as [|n IH]; intros s Hn.
  - destruct s; [reflexivity | simpl in Hn; lia].
  - simpl. rewrite split_char_partition.
    destruct (partition s [c]) as [[a b]|] eqn:P; [|reflexivity].
    f_equal. apply IH. apply partition_char_length in P. lia.
Qed.

Lemma split_single (c : char) (s : str) : split s [c] = split_char c s.
Proof. apply split_fuel_single. apply Nat.le_refl. Qed.

Lemma split_char_not_nil (c : char) (s : str) : split_char c s <> [].
Proof.
  destruct s as [|x s]; simpl; [discriminate|].
  destruct (N.eqb x c); [discriminate|].
  destruct (split_char c s); discriminate.
Qed.

Lemma join_cons (sep x : str) (l : list str) :
  l <> [] -> join sep (x :: l) = x ++ sep ++ join sep l.
Proof. destruct l; [congruence | reflexivity]. Qed.

Lemma join_split_char (c : char) (s : str) : join [c] (split_char c s) = s.
Proof.
  induction s as [|x s IH]; [reflexivity|]. simpl split_char.
  destruct (N.eqb x c) eqn:E.
  - apply N.eqb_eq in E. subst x.
    rewrite join_cons by apply split_char_not_nil. simpl. now rewrite IH.
  - destruct (split_char c s) as [|l ls] eqn:S.
    + now apply split_char_not_nil in S.
    + destruct ls as [|l' ls]; simpl in *; now rewrite IH.
Qed.

Lemma split_char_free (c : char) (s l : str) :
  In l (split_char c s) -> ~ In c l.
Proof.
  revert l. induction s as [|x s IH]; intros l; simpl.
  - intros [<-|[]]. intros [].
  - destruct (N.eqb x c) eqn:E.
    + intros [<-|H]; [intros [] | now apply IH].
    + apply N.eqb_neq in E.
      destruct (split_char c s) as [|l0 ls].
      * intros [<-|[]]. intros [H|[]]. congruence.
      * intros [<-|H].
        -- intros [H|H]; [congruence|]. apply (IH l0); [now left | exact H].
        -- apply IH. now right.
Qed.

Lemma split_char_free_id (c : char) (l : str) :
  ~ In c l -> split_char c l = [l].
Proof.
  induction l as [|x l IH]; intros H; [reflexivity|]. simpl.
  destruct (N.eqb x c) eqn:E.
  - apply N.eqb_eq in E. subst. exfalso. apply H. now left.
  - rewrite IH; [reflexivity|]. intros H'. apply H. now right.
Qed.

Lemma split_char_app_sep (c : char) (l s : str) :
  ~ In c l -> split_char c (l ++ c :: s) = l :: split_char c s.
Proof.
  induction l as [|x l IH]; intros H; simpl.
  - now rewrite N.eqb_refl.
  - destruct (N.eqb x c) eqn:E.
    + apply N.eqb_eq in E. subst. exfalso. apply H. now left.
    + rewrite IH; [reflexivity|]. intros H'. apply H. now right.
Qed.

Lemma split_char_join (c : char) (ls : list str) :
  ls <> [] -> Forall (fun l => ~ In c l) ls ->
  split_char c (join [c] ls) = ls.
Proof.
  induction ls as [|l ls IH]; intros Hne Hall; [congruence|].
  inversion Hall as [|? ? Hl Hls]; subst.
  destruct ls as [|l' ls].
  - simpl. now apply split_char_free_id.
  - rewrite join_cons by discriminate. simpl app.
    rewrite split_char_app_sep by assumption.
    f_equal. apply IH; [discriminate | assumption].
Qed.

(** *** Stripping *)

Lemma all_space_app (a b : str) :
  all_space a -> all_space b -> all_space (a ++ b).
Proof. intros Ha Hb. apply Forall_app. now split. Qed.

Lemma lstrip_decomp (s : str) : exists w, s = w ++ lstrip s /\ all_space w.
Proof.
  induction s as [|c s (w & E & Hw)]; simpl.
  - exists []. split; [reflexivity | constructor].
  - destruct (isspace c) eqn:Hc.
    + exists (c :: w). split; [simpl; now f_equal | now constructor].
    + exists []. split; [reflexivity | constructor].
Qed.

Lemma lstrip_head (s t : str) (c : char) :
  lstrip s = c :: t -> isspace c = false.
Proof.
  induction s as [|x s IH]; simpl; [discriminate|].
  destruct (isspace x) eqn:Hx; [exact IH|].
  intros H. injection H as <- _. exact Hx.
Qed.

Lemma lstrip_all_space (w t : str) :
  all_space w -> lstrip (w ++ t) = lstrip t.
Proof.
  induction 1 as [|c w Hc _ IH]; simpl; [reflexivity|]. now rewrite Hc.
Qed.

Lemma lstrip_nil_all_space (s : str) : lstrip s = [] -> all_space s.
Proof.
  intros H. destruct (lstrip_decomp s) as (w & E & Hw).
  rewrite H, app_nil_r in E. now subst.
Qed.

Lemma lstrip_app_ne (a b : str) :
  lstrip a <> [] -> lstrip (a ++ b) = lstrip a ++ b.
Proof.
  induction a as [|x a IH]; simpl; [congruence|].
  destruct (isspace x); [exact IH | reflexivity].
Qed.

Lemma lstrip_app_keep (a b : str) (c : char) :
  isspace c = false -> exists x, lstrip (a ++ c :: b) = x ++ c :: b.
Proof.
  intros Hc. induction a as [|y a IH]; simpl.
  - rewrite Hc. exists []. reflexivity.
  - destruct (isspace y); [exact IH|]. exists (y :: a). reflexivity.
Qed.

Lemma lstrip_idem (s : str) : lstrip (lstrip s) = lstrip s.
Proof.
  destruct (lstrip s) as [|c t] eqn:E; [reflexivity|].
  apply lstrip_head in E. simpl. now rewrite E.
Qed.

Lemma all_space_rev (w : str) : all_space w -> all_space (rev w).
Proof. apply Forall_rev. Qed.

Lemma rstrip_decomp (s : str) : exists w, s = rstrip s ++ w /\ all_space w.
Proof.
  unfold rstrip. destruct (lstrip_decomp (rev s)) as (w & E & Hw).
  exists (rev w). split; [|now apply all_space_rev].
  rewrite <- rev_app_distr, <- E. now rewrite rev_involutive.
Qed.

Lemma rstrip_all_space (t w : str) :
  all_space w -> rstrip (t ++ w) = rstrip t.
Proof.
  intros Hw. unfold rstrip. rewrite rev_app_distr.
  rewrite lstrip_all_space; [reflexivity | now apply all_space_rev].
Qed.

Lemma rstrip_idem (s : str) : rstrip (rstrip s) = rstrip s.
Proof. unfold rstrip. now rewrite rev_involutive, lstrip_idem. Qed.

Lemma rstrip_nil : rstrip [] = [].
Proof. reflexivity. Qed.

Lemma strip_pad (w1 l w2 : str) :
  all_space w1 -> all_space w2 -> strip (w1 ++ l ++ w2) = strip l.
Proof.
  intros H1 H2. unfold strip. rewrite lstrip_all_space by assumption.
  destruct (lstrip l) as [|c t] eqn:E.
  - apply lstrip_nil_all_space in E.
    rewrite <- (app_nil_r (l ++ w2)), lstrip_all_space;
      [reflexivity | now apply all_space_app].
  - rewrite lstrip_app_ne by congruence. rewrite E.
    now apply rstrip_all_space.
Qed.

Lemma strip_idem (s : str) : strip (strip s) = strip s.
Proof.
  unfold strip. destruct (rstrip_decomp (lstrip s)) as (w & E & Hw).
  assert (lstrip (rstrip (lstrip s)) = rstrip (lstrip s)) as ->.
  { destruct (rstrip (lstrip s)) as [|c r] eqn:R; [reflexivity|].
    simpl in E. apply lstrip_head in E. simpl. now rewrite E. }
  apply rstrip_idem.
Qed.

(** A prefix that begins and ends with a non-blank character survives
    [strip]. *)
Definition solid (p : str) : bool :=
  match p with [] => false | c :: _ => negb (isspace c) end &&
  match rev p with [] => false | c :: _ => negb (isspace c) end.

Lemma startswith_strip (l p : str) :
  solid p = true -> startswith l p = true -> startswith (strip l) p = true.
Proof.
  unfold solid. intros Hp Hl. apply andb_true_iff in Hp.
  destruct Hp as [Hf Hb]. apply startswith_iff in Hl. destruct Hl as [t ->].
  destruct p as [|c p]; [discriminate|]. apply negb_true_iff in Hf.
  destruct (rev (c :: p)) as [|d q] eqn:R; [discriminate|].
  apply negb_true_iff in Hb.
  unfold strip. replace (lstrip ((c :: p) ++ t)) with ((c :: p) ++ t)
    by (simpl; now rewrite Hf).
  unfold rstrip. rewrite rev_app_distr, R.
  destruct (lstrip_app_keep (rev t) q d Hb) as [x ->].
  rewrite rev_app_distr, <- R, rev_involutive.
  apply startswith_iff. eexists. reflexivity.
Qed.

(** *** Lines of a stripped text *)

Lemma split_char_cons_mem (c x : char) (s l : str) :
  In l (split_char c s) ->
  In l (split_char c (x :: s)) \/ In (x :: l) (split_char c (x :: s)).
Proof.
  intros H. simpl. destruct (N.eqb x c).
  - left. now right.
  - destruct (split_char c s) as [|l0 ls]; [destruct H|].
    destruct H as [<-|H]; [right; now left | left; now right].
Qed.

Lemma split_char_snoc (c x : char) (s : str) :
  split_char c (s ++ [x]) =
  if N.eqb x c then split_char c s ++ [[]]
  else removelast (split_char c s) ++ [last (split_char c s) [] ++ [x]].
Proof.
  induction s as [|y s IH].
  - simpl. destruct (N.eqb x c); reflexivity.
  - simpl app. simpl split_char. rewrite IH.
    pose proof (split_char_not_nil c s) as Hne.
    destruct (split_char c s) as [|l0 [|l1 ls]]; [congruence| |];
      destruct (N.eqb y c), (N.eqb x c); reflexivity.
Qed.

Lemma split_char_snoc_mem (c x : char) (s l : str) :
  In l (split_char c s) ->
  In l (split_char c (s ++ [x])) \/ In (l ++ [x]) (split_char c (s ++ [x])).
Proof.
  intros H. rewrite split_char_snoc. destruct (N.eqb x c).
  - left. apply in_or_app. now left.
  - pose proof (split_char_not_nil c s) as Hne.
    rewrite (app_removelast_last [] Hne) in H.
    apply in_app_or in H. destruct H as [H|[<-|[]]].
    + left. apply in_or_app. now left.
    + right. apply in_or_app. right. now left.
Qed.

Lemma lines_lpad (c : char) (w t l : str) :
  all_space w -> In l (split_char c t) ->
  exists l' w', In l' (split_char c (w ++ t)) /\ l' = w' ++ l /\ all_space w'.
Proof.
  intros Hw Hl. induction Hw as [|x w Hx Hw IH].
  - exists l, []. repeat split; [exact Hl | constructor].
  - destruct IH as (l1 & w1 & Hin & -> & Hw1).
    destruct (split_char_cons_mem c x _ _ Hin) as [H|H].
    + exists (w1 ++ l), w1. now repeat split.
    + exists (x :: w1 ++ l), (x :: w1). repeat split; [exact H|].
      now constructor.
Qed.

Lemma lines_rpad (c : char) (w : str) :
  all_space w -> forall t l, In l (split_char c t) ->
  exists l' w', In l' (split_char c (t ++ w)) /\ l' = l ++ w' /\ all_space w'.
Proof.
  induction 1 as [|x w Hx Hw IH]; intros t l Hl.
  - exists l, []. rewrite !app_nil_r. repeat split; [exact Hl | constructor].
  - replace (t ++ x :: w) with ((t ++ [x]) ++ w)
      by (now rewrite <- app_assoc).
    destruct (split_char_snoc_mem c x _ _ Hl) as [H|H];
      destruct (IH _ _ H) as (l' & w' & Hin & -> & Hw').
    + exists (l ++ w'), w'. now repeat split.
    + exists ((l ++ [x]) ++ w'), (x :: w'). repeat split; [exact Hin| |].
      * now rewrite <- app_assoc.
      * now constructor.
Qed.

(** Every line of [strip s] is a line of [s] with blank padding removed. *)
Lemma lines_strip (c : char) (s l : str) :
  In l (split_char c (strip s)) ->
  exists l' w1 w2,
    In l' (split_char c s) /\ l' = w1 ++ l ++ w2 /\
    all_space w1 /\ all_space w2.
Proof.
  unfold strip. intros H.
  destruct (rstrip_decomp (lstrip s)) as (wr & Er & Hwr).
  destruct (lstrip_decomp s) as (wl & El & Hwl).
  destruct (lines_rpad c wr Hwr _ _ H) as (l1 & w2 & H1 & -> & Hw2).
  rewrite <- Er in H1.
  destruct (lines_lpad c wl _ _ Hwl H1) as (l2 & w1 & H2 & -> & Hw1).
  rewrite <- El in H2.
  exists (w1 ++ l ++ w2), w1, w2. now repeat split.
Qed.

Lemma strip_decomp (s : str) :
  exists w1 w2, s = w1 ++ strip s ++ w2 /\ all_space w1 /\ all_space w2.
Proof.
  unfold strip.
  destruct (lstrip_decomp s) as (w1 & E1 & H1).
  destruct (rstrip_decomp (lstrip s)) as (w2 & E2 & H2).
  exists w1, w2. rewrite <- E2. now repeat split.
Qed.

Lemma strip_lpad (w l : str) : all_space w -> strip (w ++ l) = strip l.
Proof.
  intros H. rewrite <- (app_nil_r l) at 1. apply strip_pad; [exact H|].
  constructor.
Qed.

(** A solid prefix of the stripped beginning of a line is a prefix of the
    stripped line. *)
Lemma startswith_strip_prefix (cl t p : str) :
  solid p = true ->
  startswith (strip cl) p = true -> startswith (strip (cl ++ t)) p = true.
Proof.
  intros Hp H. apply startswith_iff in H. destruct H as [u Hu].
  destruct (strip_decomp cl) as (w1 & w2 & E & H1 & H2).
  rewrite E, Hu, <- !app_assoc. rewrite strip_lpad by assumption.
  apply startswith_strip; [exact Hp|].
  apply startswith_iff. eexists. reflexivity.
Qed.

End StrFacts.
Import StrFacts.

(* ===================================================================== *)
(** ** Facts about the normaliser *)
(* ===================================================================== *)

(** What one iteration of the line loop appends. *)
Definition keep (line : str) : list str :=
  if startswith_any (strip line) log_prefixes then []
  else
    let cleaned_line := hd [] (split line progress_string_marker) in
    if truthy (strip cleaned_line) then [cleaned_line] else [].

Lemma transcript_loop_eq (lines acc : list str) :
  transcript_loop lines acc = acc ++ flat_map keep lines.
Proof.
  revert acc. induction lines as [|line rest IH]; intros acc;
    cbn [transcript_loop flat_map].
  - now rewrite app_nil_r.
  - unfold keep.
    destruct (startswith_any (strip line) log_prefixes); [apply IH|].
    cbv zeta.
    destruct (truthy (strip (hd [] (split line progress_string_marker)))).
    + rewrite IH, <- app_assoc. reflexivity.
    + apply IH.
Qed.

Lemma log_prefixes_solid : forallb solid log_prefixes = true.
Proof. reflexivity. Qed.

Lemma marker_not_nil : progress_string_marker <> [].
Proof. discriminate. Qed.

Lemma startswith_any_false (s : str) (ps : list str) :
  startswith_any s ps = false <->
  forall p, In p ps -> startswith s p = false.
Proof.
  unfold startswith_any. split.
  - intros H p Hp. destruct (startswith s p) eqn:E; [|reflexivity].
    assert (existsb (startswith s) ps = true) as H'
      by (apply existsb_exists; now exists p).
    congruence.
  - intros H. destruct (existsb (startswith s) ps) eqn:E; [|reflexivity].
    apply existsb_exists in E. destruct E as (p & Hp & E).
    rewrite (H p Hp) in E. discriminate.
Qed.

(** The three properties every retained line has. *)
Definition clean (l : str) : Prop :=
  startswith_any (strip l) log_prefixes = false /\
  contains l progress_string_marker = false /\
  truthy (strip l) = true.

Lemma keep_clean (line l : str) : In l (keep line) -> clean l.
Proof.
  unfold keep.
  destruct (startswith_any (strip line) log_prefixes) eqn:Hlog; [intros []|].
  cbv zeta.
  destruct (truthy (strip (hd [] (split line progress_string_marker))))
    eqn:Ht; [|intros []].
  intros [<-|[]]. repeat split; [|now apply hd_split_no_sep, marker_not_nil
                                 |exact Ht].
  apply startswith_any_false. intros p Hp.
  destruct (startswith (strip (hd [] (split line progress_string_marker))) p)
    eqn:E; [|reflexivity].
  destruct (hd_split_prefix line progress_string_marker) as [t Et].
  assert (solid p = true) as Hsolid.
  { pose proof log_prefixes_solid as H.
    rewrite forallb_forall in H. now apply H. }
  pose proof (startswith_strip_prefix _ t p Hsolid E) as H.
  rewrite <- Et in H.
  rewrite startswith_any_false in Hlog. rewrite (Hlog p Hp) in H.
  discriminate.
Qed.

Lemma keep_free (c : char) (line l : str) :
  ~ In c line -> In l (keep line) -> ~ In c l.
Proof.
  unfold keep.
  destruct (startswith_any (strip line) log_prefixes); [intros _ []|].
  cbv zeta.
  destruct (truthy (strip (hd [] (split line progress_string_marker))));
    [|intros _ []].
  intros Hc [<-|[]] Hin.
  destruct (hd_split_prefix line progress_string_marker) as [t Et].
  apply Hc. rewrite Et. apply in_or_app. now left.
Qed.

(** Removing blank padding keeps a line clean. *)
Lemma clean_unpad (w1 l w2 : str) :
  all_space w1 -> all_space w2 -> clean (w1 ++ l ++ w2) -> clean l.
Proof.
  intros H1 H2 (Hlog & Hm & Ht). rewrite strip_pad in Hlog, Ht by assumption.
  repeat split; [exact Hlog | | exact Ht].
  now apply contains_false_infix in Hm.
Qed.

Lemma clean_not_log (l p : str) :
  clean l -> In p log_prefixes -> startswith l p = false.
Proof.
  intros (Hlog & _ & _) Hp.
  destruct (startswith l p) eqn:E; [|reflexivity].
  assert (solid p = true) as Hsolid.
  { pose proof log_prefixes_solid as H.
    rewrite forallb_forall in H. now apply H. }
  apply (startswith_strip _ _ Hsolid) in E.
  rewrite startswith_any_false in Hlog. rewrite (Hlog p Hp) in E.
  discriminate.
Qed.

Definition retained (output_capture : str) : list str :=
  flat_map keep (split_char 10%N (strip output_capture)).

Lemma transcript_text_eq (output_capture : str) :
  transcript_text output_capture = strip (join NL (retained output_capture)).
Proof.
  unfold transcript_text, retained. cbv zeta.
  change NL with [10%N]. now rewrite split_single, transcript_loop_eq.
Qed.

Lemma retained_clean (out l : str) : In l (retained out) -> clean l.
Proof.
  unfold retained. rewrite in_flat_map. intros (line & _ & H).
  now apply keep_clean in H.
Qed.

Lemma retained_free (out l : str) : In l (retained out) -> ~ In 10%N l.
Proof.
  unfold retained. rewrite in_flat_map. intros (line & Hline & H).
  apply (keep_free _ line); [|exact H]. now apply split_char_free in Hline.
Qed.

(** The lines of the transcript text: each is a retained line with blank
    padding removed, or the text is empty. *)
Lemma text_lines (out l : str) :
  In l (split_char 10%N (transcript_text out)) ->
  (retained out = [] /\ l = []) \/ clean l.
Proof.
  rewrite transcript_text_eq. intros H.
  destruct (retained out) as [|r rs] eqn:R.
  - left. split; [reflexivity|]. simpl in H. now destruct H as [<-|[]].
  - right. apply lines_strip in H.
    destruct H as (l' & w1 & w2 & Hin & -> & H1 & H2).
    apply (clean_unpad w1 l w2 H1 H2).
    change NL with [10%N] in Hin.
    rewrite split_char_join in Hin.
    + apply (retained_clean out). now rewrite R.
    + discriminate.
    + rewrite <- R. apply Forall_forall. intros x Hx.
      now apply retained_free in Hx.
Qed.

(** C1.  Whatever the process printed, no line of the transcript text starts
    with one of the log prefixes, and none contains the progress-callback
    marker. *)
Theorem retained_lines_free_of_log_and_progress :
  forall (output_capture line : str),
    In line (split (transcript_text output_capture) NL) ->
    (forall p, In p log_prefixes -> startswith line p = false) /\
    contains line progress_string_marker = false.
Proof.
  intros out l H. change NL with [10%N] in H. rewrite split_single in H.
  apply text_lines in H. destruct H as [[_ ->]|Hc].
  - split; [|reflexivity]. intros p Hp.
    apply startswith_nil_l. intros ->.
    pose proof log_prefixes_solid as Hs. rewrite forallb_forall in Hs.
    now apply Hs in Hp.
  - split; [intros p Hp; now apply clean_not_log | apply Hc].
Qed.

Lemma retained_lines_free_of_log_and_progress_witness :
  (forall p, In p log_prefixes -> startswith (py " Bye") p = false) /\
  contains (py " Bye") progress_string_marker = false.
Proof.
  apply (retained_lines_free_of_log_and_progress
           (py "whisper_init: x
 Hello world whisper_print_progress_callback: 50%
main: done
 Bye
") (py " Bye")).
  vm_compute. right. left. reflexivity.
Defined.

Lemma keep_of_clean (l : str) : clean l -> keep l = [l].
Proof.
  intros (Hlog & Hm & Ht). unfold keep. rewrite Hlog. cbv zeta.
  rewrite hd_split_id by assumption. now rewrite Ht.
Qed.

Lemma flat_map_keep_clean (ls : list str) :
  Forall clean ls -> flat_map keep ls = ls.
Proof.
  induction 1 as [|l ls Hl _ IH]; [reflexivity|].
  cbn [flat_map]. rewrite keep_of_clean by assumption. simpl. now f_equal.
Qed.

Lemma transcript_text_stripped (out : str) :
  strip (transcript_text out) = transcript_text out.
Proof. rewrite transcript_text_eq. apply strip_idem. Qed.

(** C4.  Normalising a transcript text that is already normalised gives it
    back unchanged. *)
Theorem transcript_text_idempotent :
  forall output_capture : str,
    transcript_text (transcript_text output_capture) =
    transcript_text output_capture.
Proof.
  intros out. destruct (retained out) as [|r rs] eqn:R.
  - rewrite (transcript_text_eq out), R. reflexivity.
  - rewrite (transcript_text_eq (transcript_text out)). unfold retained.
    rewrite transcript_text_stripped.
    rewrite flat_map_keep_clean.
    + change NL with [10%N]. rewrite join_split_char.
      apply transcript_text_stripped.
    + apply Forall_forall. intros l Hl.
      apply text_lines in Hl. destruct Hl as [[E _]|Hc]; [|exact Hc].
      rewrite R in E. discriminate.
Qed.

(* ===================================================================== *)
(** ** The normalisation as the specification words it *)
(* ===================================================================== *)

(** [s.find(sub)]: the index of the leftmost occurrence. *)
Fixpoint index_of (s sub : str) {struct s} : option nat :=
  if startswith s sub then Some 0
  else
    match s with
    | [] => None
    | _ :: s' => option_map S (index_of s' sub)
    end.

(** (b): cut the line at the first occurrence of the marker and keep what
    comes before it. *)
Definition truncate_at_marker (line : str) : str :=
  match index_of line progress_string_marker with
  | Some i => firstn i line
  | None => line
  end.

(** (c): non-empty after trimming. *)
Definition nonblank (line : str) : bool := truthy (strip line).

(** The three steps, then the join and the final trim, with step (a) read
    literally: a line is dropped when it starts with a log prefix. *)
Definition normalize_as_specified (lines : list str) : str :=
  let kept := filter (fun l => negb (startswith_any l log_prefixes)) lines in
  strip (join NL (filter nonblank (map truncate_at_marker kept))).

(** The same with step (a) applied to the trimmed line. *)
Definition normalize_trimmed_prefix_test (lines : list str) : str :=
  let kept :=
    filter (fun l => negb (startswith_any (strip l) log_prefixes)) lines in
  strip (join NL (filter nonblank (map truncate_at_marker kept))).

Lemma index_of_eq (s sub : str) :
  index_of s sub =
  if startswith s sub then Some 0
  else
    match s with
    | [] => None
    | _ :: s' => option_map S (index_of s' sub)
    end.
Proof. destruct s; reflexivity. Qed.

Lemma truncate_partition (s sep : str) :
  match index_of s sep with Some i => firstn i s | None => s end =
  match partition s sep with Some (a, _) => a | None => s end.
Proof.
  induction s as [|x s IH]; rewrite index_of_eq, partition_eq.
  - destruct (startswith [] sep); reflexivity.
  - destruct (startswith (x :: s) sep); [reflexivity|].
    destruct (index_of s sep) as [i|], (partition s sep) as [[a b]|];
      simpl in *; congruence.
Qed.

Lemma truncate_at_marker_split (line : str) :
  truncate_at_marker line = hd [] (split line progress_string_marker).
Proof. unfold truncate_at_marker. now rewrite truncate_partition, hd_split. Qed.

Lemma pipeline_flat_map (lines : list str) :
  filter nonblank
    (map truncate_at_marker
       (filter (fun l => negb (startswith_any (strip l) log_prefixes)) lines))
  = flat_map keep lines.
Proof.
  induction lines as [|l ls IH]; [reflexivity|].
  cbn [filter flat_map]. unfold keep at 1.
  destruct (startswith_any (strip l) log_prefixes); cbn [negb]; [exact IH|].
  cbn [map filter]. cbv zeta. unfold nonblank at 1.
  rewrite truncate_at_marker_split.
  destruct (truthy (strip (hd [] (split l progress_string_marker)))).
  - cbn [app]. now f_equal.
  - exact IH.
Qed.

(** *** The first [strip] of the raw output changes nothing *)

Lemma startswith_snoc (m s : str) (x : char) :
  m <> [] -> last m x <> x ->
  startswith (s ++ [x]) m = startswith s m.
Proof.
  revert s. induction m as [|a m IH]; intros s Hne Hlast; [congruence|].
  destruct m as [|a' m].
  - simpl in Hlast. destruct s as [|b s]; simpl.
    + rewrite andb_true_r. apply N.eqb_neq. congruence.
    + reflexivity.
  - destruct s as [|b s].
    + simpl. apply andb_false_r.
    + cbn [app startswith]. f_equal. apply IH; [discriminate | exact Hlast].
Qed.

Lemma partition_snoc (m l : str) (x : char) :
  m <> [] -> last m x <> x ->
  partition (l ++ [x]) m =
  match partition l m with
  | Some (a, b) => Some (a, b ++ [x])
  | None => None
  end.
Proof.
  intros Hne Hlast. induction l as [|y l IH].
  - rewrite (partition_eq [] m), (partition_eq ([] ++ [x]) m).
    rewrite (startswith_snoc m [] x Hne Hlast).
    rewrite startswith_nil_l by assumption. simpl.
    rewrite startswith_nil_l by assumption. reflexivity.
  - rewrite (partition_eq (y :: l) m), (partition_eq ((y :: l) ++ [x]) m).
    rewrite (startswith_snoc m (y :: l) x Hne Hlast).
    destruct (startswith (y :: l) m) eqn:E.
    + apply startswith_iff in E. destruct E as [u E]. rewrite E.
      rewrite <- app_assoc, !skipn_length_app. reflexivity.
    + cbn [app]. rewrite IH.
      destruct (partition l m) as [[a b]|]; reflexivity.
Qed.

Lemma space_not_marker_head (x : char) :
  isspace x = true -> startswith [x] progress_string_marker = false /\
  forall l, startswith (x :: l) progress_string_marker = false.
Proof.
  intros H.
  assert (N.eqb x 119 = false) as E.
  { apply N.eqb_neq. intros ->. discriminate H. }
  split; [|intros l]; cbn; now rewrite E.
Qed.

Lemma space_not_marker_last (x : char) :
  isspace x = true -> last progress_string_marker x <> x.
Proof. intros H E. cbn in E. subst x. discriminate H. Qed.

Lemma keep_nil : keep [] = [].
Proof. reflexivity. Qed.

Lemma keep_cases (l : str) : keep l = [] \/ exists cl, keep l = [cl].
Proof.
  unfold keep. destruct (startswith_any (strip l) log_prefixes); [now left|].
  cbv zeta. destruct (truthy _); [right; eexists; reflexivity | now left].
Qed.

Lemma keep_cons_space (x : char) (l : str) :
  isspace x = true -> keep (x :: l) = map (cons x) (keep l).
Proof.
  intros Hx. assert (all_space [x]) as Hw by (now repeat constructor).
  unfold keep. change (x :: l) with ([x] ++ l). rewrite strip_lpad by exact Hw.
  destruct (startswith_any (strip l) log_prefixes); [reflexivity|]. cbv zeta.
  assert (hd [] (split ([x] ++ l) progress_string_marker) =
          x :: hd [] (split l progress_string_marker)) as ->.
  { rewrite !hd_split. cbn [app]. rewrite (partition_eq (x :: l)).
    destruct (space_not_marker_head x Hx) as [_ ->].
    destruct (partition l progress_string_marker) as [[a b]|]; reflexivity. }
  change (x :: hd [] (split l progress_string_marker))
    with ([x] ++ hd [] (split l progress_string_marker)).
  rewrite strip_lpad by exact Hw.
  destruct (truthy _); reflexivity.
Qed.

Lemma strip_rpad (l w : str) : all_space w -> strip (l ++ w) = strip l.
Proof.
  intros H. change (l ++ w) with ([] ++ l ++ w). apply strip_pad;
    [constructor | exact H].
Qed.

Lemma keep_snoc_space (x : char) (l : str) :
  isspace x = true ->
  exists ws, all_space ws /\ keep (l ++ [x]) = map (fun c => c ++ ws) (keep l).
Proof.
  intros Hx. assert (all_space [x]) as Hw by (now repeat constructor).
  unfold keep. rewrite strip_rpad by exact Hw.
  destruct (startswith_any (strip l) log_prefixes).
  { exists []. split; [constructor | reflexivity]. }
  cbv zeta. rewrite !hd_split.
  rewrite (partition_snoc _ l x marker_not_nil (space_not_marker_last x Hx)).
  destruct (partition l progress_string_marker) as [[a b]|].
  - exists []. split; [constructor|].
    destruct (truthy (strip a)); simpl; now rewrite ?app_nil_r.
  - exists [x]. split; [exact Hw|]. rewrite strip_rpad by exact Hw.
    destruct (truthy (strip l)); reflexivity.
Qed.

Lemma join_head_cons (sep a : str) (x : char) (R : list str) :
  join sep ((x :: a) :: R) = x :: join sep (a :: R).
Proof. destruct R; reflexivity. Qed.

Lemma join_snoc_tail (sep cl ws : str) (A : list str) :
  join sep (A ++ [cl ++ ws]) = join sep (A ++ [cl]) ++ ws.
Proof.
  induction A as [|a A IH]; [reflexivity|]. cbn [app].
  rewrite !join_cons by (now destruct A). rewrite IH.
  now rewrite <- !app_assoc.
Qed.

(** The text computed from the lines of [s], without the first [strip]. *)
Definition text_of_lines (s : str) : str :=
  strip (join NL (flat_map keep (split_char 10%N s))).

Lemma text_of_lines_cons (x : char) (s : str) :
  isspace x = true -> text_of_lines (x :: s) = text_of_lines s.
Proof.
  intros Hx. unfold text_of_lines. cbn [split_char].
  destruct (N.eqb x 10) eqn:E; [reflexivity|].
  pose proof (split_char_not_nil 10%N s) as Hne.
  destruct (split_char 10%N s) as [|l0 ls]; [congruence|].
  cbn [flat_map]. rewrite keep_cons_space by exact Hx.
  destruct (keep_cases l0) as [->|[cl ->]]; [reflexivity|].
  cbn [map app]. rewrite join_head_cons.
  change (x :: join NL (cl :: flat_map keep ls))
    with ([x] ++ join NL (cl :: flat_map keep ls)).
  apply strip_lpad. now repeat constructor.
Qed.

Lemma text_of_lines_snoc (x : char) (s : str) :
  isspace x = true -> text_of_lines (s ++ [x]) = text_of_lines s.
Proof.
  intros Hx. unfold text_of_lines. rewrite split_char_snoc.
  destruct (N.eqb x 10) eqn:E.
  - rewrite flat_map_app. cbn [flat_map]. rewrite keep_nil.
    now rewrite !app_nil_r.
  - pose proof (split_char_not_nil 10%N s) as Hne.
    destruct (exists_last Hne) as (A & l & ->).
    rewrite removelast_last, last_last.
    rewrite !flat_map_app. cbn [flat_map]. rewrite !app_nil_r.
    destruct (keep_snoc_space x l Hx) as (ws & Hws & ->).
    destruct (keep_cases l) as [->|[cl ->]]; [reflexivity|].
    cbn [map]. rewrite join_snoc_tail. now apply strip_rpad.
Qed.

Lemma text_of_lines_lpad (w s : str) :
  all_space w -> text_of_lines (w ++ s) = text_of_lines s.
Proof.
  induction 1 as [|x w Hx _ IH]; [reflexivity|].
  cbn [app]. now rewrite text_of_lines_cons.
Qed.

Lemma text_of_lines_rpad (w : str) :
  all_space w -> forall s, text_of_lines (s ++ w) = text_of_lines s.
Proof.
  induction 1 as [|x w Hx _ IH]; intros s; [now rewrite app_nil_r|].
  replace (s ++ x :: w) with ((s ++ [x]) ++ w) by (now rewrite <- app_assoc).
  rewrite IH. now apply text_of_lines_snoc.
Qed.

Lemma text_of_lines_strip (s : str) :
  text_of_lines (strip s) = text_of_lines s.
Proof.
  destruct (strip_decomp s) as (w1 & w2 & E & H1 & H2).
  rewrite E at 2. rewrite text_of_lines_lpad by assumption.
  now rewrite text_of_lines_rpad.
Qed.

(** C2, with step (a) as the code has it.  For every raw output, the
    transcript text is obtained from the output's lines, in order, by
    (a) dropping each line that starts with a log prefix once trimmed,
    (b) cutting the others at the first occurrence of the progress marker,
    (c) keeping those that are non-empty after trimming, then joining with
    newlines and trimming the result. *)
Theorem transcript_text_pipeline :
  forall output_capture : str,
    transcript_text output_capture =
    normalize_trimmed_prefix_test (split output_capture NL).
Proof.
  intros out. rewrite transcript_text_eq.
  unfold normalize_trimmed_prefix_test. cbv zeta.
  rewrite pipeline_flat_map. change NL with [10%N].
  rewrite split_single. apply (text_of_lines_strip out).
Qed.

(** C2 as stated fails: an indented log line is dropped by the code, but
    kept when step (a) is read literally. *)
Lemma literal_prefix_test_differs :
  transcript_text (py "Hello
  main: x") = py "Hello" /\
  normalize_as_specified (split (py "Hello
  main: x") NL) = py "Hello
  main: x".
Proof. split; vm_compute; reflexivity. Qed.

(* ===================================================================== *)
(** ** The detected language *)
(* ===================================================================== *)

Lemma In_join_infix (sep l : str) (ls : list str) :
  In l ls -> exists a b, join sep ls = a ++ l ++ b.
Proof.
  induction ls as [|x ls IH]; [intros []|].
  intros [->|H].
  - destruct ls as [|y ls].
    + exists [], []. simpl. now rewrite app_nil_r.
    + exists [], (sep ++ join sep (y :: ls)). reflexivity.
  - destruct (IH H) as (a & b & E).
    rewrite join_cons by (intros ->; destruct H).
    exists (x ++ sep ++ a), b. rewrite E. now rewrite <- !app_assoc.
Qed.

Lemma line_infix (c : char) (s l : str) :
  In l (split_char c s) -> exists a b, s = a ++ l ++ b.
Proof.
  intros H. destruct (In_join_infix [c] _ _ H) as (a & b & E).
  rewrite join_split_char in E. now exists a, b.
Qed.

Lemma lower_app (a b : str) : lower (a ++ b) = lower a ++ lower b.
Proof. apply flat_map_app. Qed.

Lemma contains_lower_line (s l m : str) :
  In l (split_char 10%N s) ->
  contains (lower l) m = true -> contains (lower s) m = true.
Proof.
  intros Hin H. destruct (line_infix _ _ _ Hin) as (a & b & ->).
  rewrite !lower_app. apply contains_iff in H. destruct H as (u & v & ->).
  apply contains_iff. exists (lower a ++ u), (v ++ lower b).
  now rewrite <- !app_assoc.
Qed.

Lemma language_loop_none (lines : list str) (language : str) :
  (forall l, In l lines -> contains (lower l) language_marker = false) ->
  language_loop lines language = language.
Proof.
  induction lines as [|l ls IH]; intros H; [reflexivity|].
  cbn [language_loop]. rewrite (H l) by (now left).
  apply IH. intros l' Hl'. apply H. now right.
Qed.

Lemma language_loop_first (before after : list str) (line language : str) :
  (forall l, In l before -> contains (lower l) language_marker = false) ->
  contains (lower line) language_marker = true ->
  language_loop (before ++ line :: after) language =
  strip (last (split line (py ":")) []).
Proof.
  intros Hb Hl. induction before as [|l ls IH]; cbn [app language_loop].
  - now rewrite Hl.
  - rewrite (Hb l) by (now left). apply IH. intros l' Hl'. apply Hb.
    now right.
Qed.

Lemma split_char_at_sep (c : char) (pre post : str) :
  split_char c (pre ++ c :: post) = split_char c pre ++ split_char c post.
Proof.
  induction pre as [|x pre IH]; cbn [app split_char].
  - now rewrite N.eqb_refl.
  - rewrite IH. destruct (N.eqb x c); [reflexivity|].
    pose proof (split_char_not_nil c pre) as Hne.
    destruct (split_char c pre) as [|l0 ls0]; [congruence | reflexivity].
Qed.

Lemma contains_char (c : char) (s : str) :
  contains s [c] = false -> ~ In c s.
Proof.
  intros H Hin. apply in_split in Hin. destruct Hin as (a & b & ->).
  enough (contains (a ++ c :: b) [c] = true) by congruence.
  apply contains_iff. exists a, b. reflexivity.
Qed.

Lemma last_split_colon (pre post : str) :
  contains post (py ":") = false ->
  last (split (pre ++ py ":" ++ post) (py ":")) [] = post.
Proof.
  intros H. change (py ":") with [58%N] in *. rewrite split_single.
  cbn [app]. rewrite split_char_at_sep.
  rewrite (split_char_free_id 58%N post) by (now apply contains_char).
  apply last_last.
Qed.

Lemma first_match {A} (f : A -> bool) (ls : list A) :
  (exists l, In l ls /\ f l = true) ->
  exists before l after,
    ls = before ++ l :: after /\
    (forall x, In x before -> f x = false) /\ f l = true.
Proof.
  induction ls as [|x ls IH]; intros (l & Hin & Hl); [destruct Hin|].
  destruct (f x) eqn:Hx.
  - exists [], x, ls. repeat split; [intros y []|exact Hx].
  - destruct Hin as [->|Hin]; [congruence|].
    destruct (IH (ex_intro _ l (conj Hin Hl))) as (b & m & a & -> & Hb & Hm).
    exists (x :: b), m, a. repeat split; [|exact Hm].
    intros y [<-|Hy]; [exact Hx | now apply Hb].
Qed.

Lemma lower_char_colon (c : char) : In 58%N (lower_char c) -> c = 58%N.
Proof.
  unfold lower_char.
  destruct ((65 <=? c)%N && (c <=? 90)%N) eqn:E1.
  - apply andb_true_iff in E1. destruct E1 as [E1 _].
    apply N.leb_le in E1. intros [H|[]]. lia.
  - destruct (c =? 304)%N; [intros [H|[H|[]]]; discriminate|].
    destruct (c =? 8490)%N; [intros [H|[]]; discriminate|].
    now intros [H|[]].
Qed.

Lemma marker_line_has_colon (line : str) :
  contains (lower line) language_marker = true -> In 58%N line.
Proof.
  intros H. apply contains_iff in H. destruct H as (a & b & E).
  assert (In 58%N (lower line)) as Hin.
  { rewrite E. apply in_or_app. right. apply in_or_app. left.
    unfold language_marker. cbn. repeat (try (now left); right). }
  unfold lower in Hin. apply in_flat_map in Hin.
  destruct Hin as (c & Hc & Hl). apply lower_char_colon in Hl. now subst.
Qed.

Lemma last_colon (line : str) :
  In 58%N line ->
  exists pre post,
    line = pre ++ py ":" ++ post /\ contains post (py ":") = false.
Proof.
  induction line as [|x l IH]; [intros []|]. intros Hin.
  destruct (in_dec N.eq_dec 58%N l) as [Hl|Hl].
  - destruct (IH Hl) as (pre & post & -> & Hp).
    exists (x :: pre), post. now split.
  - destruct Hin as [->|Hin]; [|contradiction].
    exists [], l. split; [reflexivity|].
    destruct (contains l (py ":")) eqn:E; [|reflexivity].
    apply contains_iff in E. destruct E as (a & b & ->).
    exfalso. apply Hl. apply in_or_app. right. now left.
Qed.

(** C3.  When no line of the raw output contains "detected language:"
    (compared on the lower-cased line), the language is "unknown".  When
    some line does, the first such line has a last colon, and the language
    is the text after it, trimmed, in its original case. *)
Theorem detected_language_spec :
  forall output_capture : str,
    ((forall line, In line (split output_capture NL) ->
                   contains (lower line) language_marker = false) ->
     detected_language output_capture = py "unknown") /\
    (forall before after pre post,
       split output_capture NL = before ++ (pre ++ py ":" ++ post) :: after ->
       (forall l, In l before ->
                  contains (lower l) language_marker = false) ->
       contains (lower (pre ++ py ":" ++ post)) language_marker = true ->
       contains post (py ":") = false ->
       detected_language output_capture = strip post) /\
    ((exists line, In line (split output_capture NL) /\
                   contains (lower line) language_marker = true) ->
     exists before after pre post,
       split output_capture NL = before ++ (pre ++ py ":" ++ post) :: after /\
       (forall l, In l before ->
                  contains (lower l) language_marker = false) /\
       contains (lower (pre ++ py ":" ++ post)) language_marker = true /\
       contains post (py ":") = false).
Proof.
  intros out. split; [|split].
  - intros H. unfold detected_language. cbv zeta.
    destruct (contains (lower out) language_marker); [|reflexivity].
    now apply language_loop_none.
  - intros before after pre post Hsplit Hb Hl Hpost.
    unfold detected_language. cbv zeta.
    assert (contains (lower out) language_marker = true) as ->.
    { apply (contains_lower_line out (pre ++ py ":" ++ post)); [|exact Hl].
      change NL with [10%N] in Hsplit. rewrite split_single in Hsplit.
      rewrite Hsplit. apply in_or_app. right. now left. }
    rewrite Hsplit. rewrite language_loop_first by assumption.
    now rewrite last_split_colon.
  - intros H.
    destruct (first_match (fun l => contains (lower l) language_marker)
                          _ H) as (before & line & after & E & Hb & Hl).
    destruct (last_colon line (marker_line_has_colon line Hl))
      as (pre & post & -> & Hp).
    exists before, after, pre, post. now repeat split.
Qed.

Lemma detected_language_spec_witness :
  detected_language (py " hello
 world") = py "unknown" /\
  detected_language (py "main: x
whisper_full: auto-Detected Language: EN (p = 0.97: high) 
 hi") = py "high)".
Proof.
  split.
  - apply (proj1 (detected_language_spec _)).
    intros line H. vm_compute in H.
    destruct H as [<-|[<-|[]]]; reflexivity.
  - apply (proj1 (proj2 (detected_language_spec _))
             [py "main: x"] [py " hi"]
             (py "whisper_full: auto-Detected Language: EN (p = 0.97")
             (py " high) ")).
    + vm_compute. reflexivity.
    + intros l H. destruct H as [<-|[]]. reflexivity.
    + reflexivity.
    + reflexivity.
Defined.

(* ===================================================================== *)
(** ** Output paths *)
(* ===================================================================== *)

Lemma name_last (r : str) (dirs : list str) (nm : str) :
  name (mkPath r (dirs ++ [nm])) = nm.
Proof. unfold name. cbn [tail]. apply last_last. Qed.

Lemma parent_last (r : str) (dirs : list str) (nm : str) :
  parent (mkPath r (dirs ++ [nm])) = mkPath r dirs.
Proof. unfold parent. cbn [root tail]. now rewrite removelast_last. Qed.

(** C9.  Without an override, [speech.mp3] in any directory maps to
    [speech-base-timestamps.txt] in the same directory for model "base" with
    timestamps, and to [speech.txt] when neither a model name nor timestamps
    are given; a non-empty custom output path is returned as it is, whatever
    the input path and the other arguments. *)
Theorem generate_output_path_spec :
  forall (r : str) (dirs : list str),
    generate_output_path (mkPath r (dirs ++ [py "speech.mp3"]))
                         None (Some (py "base")) true
    = inr (mkPath r (dirs ++ [py "speech-base-timestamps.txt"])) /\
    generate_output_path (mkPath r (dirs ++ [py "speech.mp3"]))
                         None None false
    = inr (mkPath r (dirs ++ [py "speech.txt"])) /\
    (forall (input_path : Path) (c : str) (model : option str) (ts : bool),
       c <> [] ->
       generate_output_path input_path (Some c) model ts
       = inr (Path_of_str c)).
Proof.
  intros r dirs. split; [|split].
  - unfold generate_output_path. cbn [opt_truthy opt_str truthy app].
    rewrite parent_last. unfold stem. rewrite name_last. reflexivity.
  - unfold generate_output_path. cbn [opt_truthy opt_str truthy app].
    unfold with_suffix, suffix. rewrite name_last. cbn [root tail].
    rewrite removelast_last. reflexivity.
  - intros input_path c model ts Hc. unfold generate_output_path.
    destruct c as [|x c]; [congruence | reflexivity].
Qed.

Lemma generate_output_path_spec_witness :
  generate_output_path (Path_of_str (py "talks/speech.mp3"))
                       (Some (py "out/notes.txt")) (Some (py "base")) true
  = inr (mkPath [] [py "out"; py "notes.txt"]).
Proof.
  destruct (generate_output_path_spec [] [py "talks"]) as (_ & _ & H).
  rewrite (H (Path_of_str (py "talks/speech.mp3")) (py "out/notes.txt")
             (Some (py "base")) true); [reflexivity | discriminate].
Defined.

(* ===================================================================== *)
(** ** Validation comes first *)
(* ===================================================================== *)

(** The four ways an input file fails the validation. *)
Definition invalid_input (env : Env) (file_path : str) : Prop :=
  let path := Path_of_str file_path in
  path_exists env path = false \/
  path_is_file env path = false \/
  existsb (str_eqb (lower (suffix path))) SUPPORTED_EXTENSIONS = false \/
  access_R_OK env path = false.

Definition validation_error (e : exn) : Prop :=
  match e with
  | FileNotFoundError _ | ValueError _ => True
  | _ => False
  end.

Lemma validate_one_invalid (env : Env) (file_path : str) :
  invalid_input env file_path ->
  exists e, validate_one env file_path = inl e /\ validation_error e.
Proof.
  unfold invalid_input, validate_one. cbv zeta.
  destruct (path_exists env (Path_of_str file_path));
    [|intros _; eexists; split; [reflexivity | exact I]].
  destruct (path_is_file env (Path_of_str file_path));
    [|intros _; eexists; split; [reflexivity | exact I]].
  destruct (existsb _ SUPPORTED_EXTENSIONS);
    [|intros _; eexists; split; [reflexivity | exact I]].
  destruct (access_R_OK env (Path_of_str file_path));
    [|intros _; eexists; split; [reflexivity | exact I]].
  intros [H|[H|[H|H]]]; discriminate.
Qed.

Lemma validate_one_cases (env : Env) (file_path : str) :
  (exists e, validate_one env file_path = inl e /\ validation_error e) \/
  validate_one env file_path = inr (Path_of_str file_path).
Proof.
  unfold validate_one. cbv zeta.
  destruct (path_exists env _); cbn [negb];
    [|left; eexists; split; [reflexivity | exact I]].
  destruct (path_is_file env _); cbn [negb];
    [|left; eexists; split; [reflexivity | exact I]].
  destruct (existsb _ SUPPORTED_EXTENSIONS); cbn [negb];
    [|left; eexists; split; [reflexivity | exact I]].
  destruct (access_R_OK env _); cbn [negb];
    [|left; eexists; split; [reflexivity | exact I]].
  now right.
Qed.

Lemma validate_loop_invalid (env : Env) (file_paths : list str) :
  (exists f, In f file_paths /\ invalid_input env f) ->
  forall acc, exists e,
    validate_loop env file_paths acc = inl e /\ validation_error e.
Proof.
  induction file_paths as [|f fs IH]; intros (g & Hin & Hg) acc.
  - destruct Hin.
  - cbn [validate_loop].
    destruct (validate_one_cases env f) as [(e & E0 & He)|E0]; rewrite E0.
    + exists e. now split.
    + destruct Hin as [->|Hin].
      * destruct (validate_one_invalid env g Hg) as (e & He & _).
        congruence.
      * apply IH. exists g. now split.
Qed.

(** C10.  When some input file is missing, not a regular file, of an
    unsupported extension or unreadable, [process_files] raises a validation
    error ([FileNotFoundError] or [ValueError]) and leaves the world as it
    was: no process is started for any file and nothing is logged.  The
    configuration is arbitrary, so this holds in batch mode too. *)
Theorem invalid_input_aborts_run :
  forall (env : Env) (config : TranscriptionConfig) (verbose : bool)
         (input_files : list str) (w : World),
    (exists f, In f input_files /\ invalid_input env f) ->
    exists e,
      process_files env config verbose input_files w = (w, inl e) /\
      validation_error e.
Proof.
  intros env config verbose input_files w H.
  destruct (validate_loop_invalid env input_files H []) as (e & E & He).
  exists e. split; [|exact He].
  unfold process_files, bind, lift, validate_input_files. now rewrite E.
Qed.

(* ===================================================================== *)
(** ** The concatenated output *)
(* ===================================================================== *)

(** One entry: the header line naming the source file, then the text. *)
Definition entry (result : Result) : str :=
  py "=== " ++ name (input_file result) ++ py " ===" ++ NL ++
  text result ++ NL.

(** The divider: a line of fifty "=" between two blank lines. *)
Definition divider : str := NL ++ repeat 61%N 50 ++ NL ++ NL.

Lemma concatenated_loop_eq (results : list Result) :
  forall (i n : nat) (content : str),
    n = i + length results ->
    concatenated_loop i n results content =
    content ++ join divider (map entry results).
Proof.
  induction results as [|r rs IH]; intros i n content Hn;
    cbn [concatenated_loop map].
  - cbn [join]. now rewrite app_nil_r.
  - cbv zeta. cbn [length] in Hn. destruct rs as [|r' rs].
    + replace (i <? n - 1) with false
        by (symmetry; apply Nat.ltb_ge; cbn [length] in Hn; lia).
      cbn [concatenated_loop map join]. unfold entry.
      now rewrite <- !app_assoc.
    + replace (i <? n - 1) with true
        by (symmetry; apply Nat.ltb_lt; cbn [length] in Hn; lia).
      rewrite IH by (cbn [length] in *; lia).
      rewrite (join_cons divider (entry r)) by discriminate.
      unfold entry, divider. now rewrite <- !app_assoc.
Qed.

(** C7.  When the destination can be opened, the concatenated writer leaves
    in it the entries of the results in input order, each a header line
    naming the source file followed by the text, with the divider between
    consecutive entries and none after the last. *)
Theorem concatenated_file_content :
  forall (env : Env) (config : TranscriptionConfig) (c : str)
         (results : list Result) (w : World),
    custom_output config = Some c ->
    open_error env (Path_of_str c) = None ->
    exists w',
      _save_concatenated_results env config results w = (w', inr tt) /\
      files w' (Path_of_str c) = Some (join divider (map entry results)).
Proof.
  intros env config c results w Hc Hopen.
  unfold _save_concatenated_results, try_except, bind, write_file, print.
  rewrite Hc, Hopen. eexists. split; [reflexivity|].
  cbn [files]. destruct (Path_eq_dec _ _) as [_|Hne]; [|congruence].
  now rewrite concatenated_loop_eq.
Qed.

(* ===================================================================== *)
(** ** The per-file loop of [process_files] *)
(* ===================================================================== *)

Section ProcessFiles.

Variable env : Env.
Variable config : TranscriptionConfig.
Variable verbose : bool.

(** The process run for an input file exits with status 0. *)
Definition succeeds (input_path : Path) : bool :=
  Z.eqb (returncode
           (run_whisper env input_path (include_timestamps config) verbose))
        0.

(** The output captured from that run. *)
Definition capture (input_path : Path) : str :=
  let p := run_whisper env input_path (include_timestamps config) verbose in
  if verbose then proc_stdout p else proc_stdout p ++ proc_stderr p.

(** The message of the error raised when the run fails. *)
Definition failure_msg (input_path : Path) : str :=
  let p := run_whisper env input_path (include_timestamps config) verbose in
  error_msg (returncode p)
            (if verbose then capture input_path else proc_stdout p).

(** A result as [process_files] builds it for its input file. *)
Definition result_ok (r : Result) : Prop :=
  text r = transcript_text (capture (input_file r)) /\
  language r = detected_language (capture (input_file r)) /\
  generate_output_path (input_file r)
    (if negb (batch_mode config) then custom_output config else None)
    (Some (model_name config)) (include_timestamps config)
  = inr (output_file r).

Definition after_launch (w : World) (input_path : Path) : World :=
  mkWorld (files w) (stdout w) (stderr w) (launched w ++ [input_path]).

Lemma supported_suffix_name (p : Path) :
  existsb (str_eqb (lower (suffix p))) SUPPORTED_EXTENSIONS = true ->
  name p <> [].
Proof.
  intros H Hn. unfold suffix in H. rewrite Hn in H. discriminate H.
Qed.

Lemma validate_one_name (f : str) (p : Path) :
  validate_one env f = inr p -> name p <> [].
Proof.
  unfold validate_one. cbv zeta.
  destruct (path_exists env _); cbn [negb]; [|discriminate].
  destruct (path_is_file env _); cbn [negb]; [|discriminate].
  destruct (existsb _ SUPPORTED_EXTENSIONS) eqn:E; cbn [negb]; [|discriminate].
  destruct (access_R_OK env _); cbn [negb]; [|discriminate].
  intros H. injection H as <-. now apply supported_suffix_name.
Qed.

Lemma validate_loop_names (fs : list str) :
  forall acc ps,
    validate_loop env fs acc = inr ps ->
    Forall (fun p => name p <> []) acc ->
    Forall (fun p => name p <> []) ps.
Proof.
  induction fs as [|f fs IH]; intros acc ps; cbn [validate_loop].
  - intros H. now injection H as <-.
  - destruct (validate_one env f) as [e|p] eqn:E; [discriminate|].
    intros H Hacc. apply (IH _ _ H). apply Forall_app. split; [exact Hacc|].
    constructor; [|constructor]. now apply validate_one_name in E.
Qed.

Lemma generate_output_path_total (p : Path) (c m : option str) (ts : bool) :
  name p <> [] -> exists o, generate_output_path p c m ts = inr o.
Proof.
  intros Hn. unfold generate_output_path.
  destruct (opt_truthy c); [eexists; reflexivity|]. cbv zeta.
  destruct (opt_truthy m); [eexists; reflexivity|].
  destruct ts; [eexists; reflexivity|]. cbn [app].
  unfold with_suffix.
  change (contains (py ".txt") (py "/")) with false.
  change ((truthy (py ".txt") && negb (startswith (py ".txt") (py "."))) ||
          str_eqb (py ".txt") (py ".")) with false.
  cbv iota zeta. destruct (name p); [congruence|]. cbn [truthy negb].
  eexists. reflexivity.
Qed.

Lemma process_one_run (p : Path) (w : World) :
  name p <> [] ->
  exists o,
    generate_output_path p
      (if negb (batch_mode config) then custom_output config else None)
      (Some (model_name config)) (include_timestamps config) = inr o /\
    process_one env config verbose p w =
    (after_launch w p,
     if succeeds p
     then inr (mkResult (transcript_text (capture p))
                        (detected_language (capture p)) p o)
     else inl (TranscriptionError (failure_msg p))).
Proof.
  intros Hn.
  destruct (generate_output_path_total p
              (if negb (batch_mode config) then custom_output config
               else None)
              (Some (model_name config)) (include_timestamps config) Hn)
    as [o Ho].
  exists o. split; [exact Ho|].
  unfold process_one, transcribe_file, bind, launch, lift, ret, raise.
  unfold succeeds, failure_msg, capture, after_launch. cbv zeta.
  destruct (Z.eqb _ 0); cbn [negb]; [|reflexivity].
  rewrite Ho. reflexivity.
Qed.

Definition error_line (input_path : Path) : str :=
  py "Error: " ++ failure_msg input_path.


Lemma process_loop_abort (pre post : list Path) (f : Path) :
  batch_mode config = false ->
  Forall (fun p => name p <> []) (pre ++ f :: post) ->
  forallb succeeds pre = true ->
  succeeds f = false ->
  forall (results : list Result) (w : World),
    process_loop env config verbose (pre ++ f :: post) results w =
    (mkWorld (files w) (stdout w) (stderr w ++ [error_line f])
             (launched w ++ pre ++ [f]),
     inl (TranscriptionError (failure_msg f))).
Proof.
  intros Hb Hn Hpre Hf. induction pre as [|p pre IH]; intros results w;
    cbn [app process_loop].
  - inversion Hn as [|? ? Hf' _]; subst.
    destruct (process_one_run f w Hf') as (o & _ & ->). rewrite Hf.
    unfold bind, print_stderr, raise. rewrite Hb. reflexivity.
  - cbn [app] in Hn. inversion Hn as [|? ? Hp Hn']; subst.
    cbn [forallb] in Hpre. apply andb_true_iff in Hpre.
    destruct Hpre as [Hp' Hpre].
    destruct (process_one_run p w Hp) as (o & _ & ->). rewrite Hp'.
    rewrite (IH Hn' Hpre). unfold after_launch.
    cbn [files stdout stderr launched]. now rewrite <- !app_assoc.
Qed.

End ProcessFiles.

(** C6.  Outside batch mode, the first file whose transcription fails ends
    the run: the error is printed on stderr and raised to the caller, no
    results are returned, and no process is started for any later file. *)
Theorem first_failure_aborts_run :
  forall (env : Env) (config : TranscriptionConfig) (verbose : bool)
         (input_files : list str) (pre post : list Path) (f : Path)
         (w : World),
    batch_mode config = false ->
    validate_input_files env input_files = inr (pre ++ f :: post) ->
    forallb (succeeds env config verbose) pre = true ->
    succeeds env config verbose f = false ->
    process_files env config verbose input_files w =
    (mkWorld (files w) (stdout w)
             (stderr w ++ [error_line env config verbose f])
             (launched w ++ pre ++ [f]),
     inl (TranscriptionError (failure_msg env config verbose f))).
Proof.
  intros env config verbose input_files pre post f w Hb Hv Hpre Hf.
  unfold process_files, bind, lift. rewrite Hv.
  apply process_loop_abort; try assumption.
  apply (validate_loop_names env input_files [] _ Hv). constructor.
Qed.

(* ===================================================================== *)
(** ** Runs on a small machine *)
(* ===================================================================== *)

(** A machine where every path but [missing.mp3] is a readable regular
    file, every file can be written, and the engine fails on the file named
    [failing] and prints a greeting for any other. *)
Definition demo_env (failing : str) : Env :=
  mkEnv (fun p => negb (str_eqb (name p) (py "missing.mp3")))
        (fun _ => true)
        (fun _ => true)
        (fun p _ _ =>
           if str_eqb (name p) failing
           then mkCompleted 1 (py "error: failed to read audio") []
           else mkCompleted 0 (py " Hello from " ++ name p)
                              (py "whisper_full: auto-detected language: en"))
        (fun _ => None).

Definition empty_world : World := mkWorld (fun _ => None) [] [] [].

Definition batch_config : TranscriptionConfig :=
  mkConfig (py "base") false true (Some (py "all.txt")).

Definition single_config : TranscriptionConfig :=
  mkConfig (py "base") false false None.

Definition three_files : list str := [py "a.mp3"; py "b.mp3"; py "c.mp3"].

(** Over an engine whose runs are all started and decoded,
    [EngineFaults.process_files] is [process_files]. *)
Lemma process_files_engine_of (env : Env) (config : TranscriptionConfig)
    (verbose : bool) (input_files : list str) (w : World) :
  EngineFaults.process_files env (EngineFaults.engine_of env) config verbose
                             input_files w =
  process_files env config verbose input_files w.
Proof. reflexivity. Qed.

(** An engine that prints a greeting for every file, as [demo_env] does,
    except for the file named [garbled]: for that one it prints the bytes
    [b' Hello \xff'] and exits with status 0.  The last byte is not text:
    the strict decoding refuses it at position 7, and the verbose path
    reads it as a replacement character. *)
Definition garbling_engine (garbled : str) : EngineFaults.Engine :=
  fun input_path include_timestamps verbose =>
    if str_eqb (name input_path) garbled
    then EngineFaults.NotDecoded
           (py "'utf-8' codec can't decode byte 0xff in position 7: invalid start byte")
           (mkCompleted 0 (py " Hello " ++ [65533%N]) [])
    else EngineFaults.Exited
           (run_whisper (demo_env []) input_path include_timestamps verbose).

(** C5.  Batch mode, three valid files, and the engine prints a byte that is
    not text for the middle one.  On the silent path the decoding error
    leaves [process_files]: nothing is printed on stderr, no process is
    started for the third file, and no result is returned, not even that of
    the first file.  On the verbose path the same three runs give three
    results. *)
Theorem batch_mode_aborts_on_undecodable_output :
  EngineFaults.process_files (demo_env []) (garbling_engine (py "b.mp3"))
                             batch_config false three_files empty_world =
  (mkWorld (fun _ => None) [] []
           [Path_of_str (py "a.mp3"); Path_of_str (py "b.mp3")],
   inl (ValueError
          (py "'utf-8' codec can't decode byte 0xff in position 7: invalid start byte")))
  /\
  exists w' results,
    EngineFaults.process_files (demo_env []) (garbling_engine (py "b.mp3"))
                               batch_config true three_files empty_world =
    (w', inr results) /\
    stderr w' = [] /\
    map input_file results =
      [Path_of_str (py "a.mp3"); Path_of_str (py "b.mp3");
       Path_of_str (py "c.mp3")] /\
    map text results =
      [py "Hello from a.mp3"; py "Hello " ++ [65533%N];
       py "Hello from c.mp3"].
Proof.
  split; [reflexivity|].
  eexists _, _. split; [reflexivity|]. repeat split.
Qed.

(** Outside batch mode, the first of three files fails: the error is
    raised, and only the first file was started. *)
Lemma first_failure_aborts_run_witness :
  process_files (demo_env (py "a.mp3")) single_config false three_files
                empty_world =
  (mkWorld (fun _ => None) []
           [py "Error: whisper.cpp failed with return code 1:
error: failed to read audio"]
           [Path_of_str (py "a.mp3")],
   inl (TranscriptionError (py "whisper.cpp failed with return code 1:
error: failed to read audio"))).
Proof.
  exact (first_failure_aborts_run
           (demo_env (py "a.mp3")) single_config false three_files
           [] [Path_of_str (py "b.mp3"); Path_of_str (py "c.mp3")]
           (Path_of_str (py "a.mp3")) empty_world
           eq_refl eq_refl eq_refl eq_refl).
Defined.

(** A missing file among valid ones, in batch mode: nothing is started. *)
Lemma invalid_input_aborts_run_witness :
  exists e,
    process_files (demo_env (py "b.mp3")) batch_config false
                  [py "a.mp3"; py "missing.mp3"; py "c.mp3"] empty_world
    = (empty_world, inl e) /\
    validation_error e.
Proof.
  apply (invalid_input_aborts_run
           (demo_env (py "b.mp3")) batch_config false
           [py "a.mp3"; py "missing.mp3"; py "c.mp3"] empty_world).
  exists (py "missing.mp3"). split.
  - right. left. reflexivity.
  - left. reflexivity.
Defined.

Definition hello_world_results : list Result :=
  [mkResult (py "Hello") (py "en") (Path_of_str (py "a.mp3"))
            (Path_of_str (py "a-base.txt"));
   mkResult (py "World") (py "en") (Path_of_str (py "b.mp3"))
            (Path_of_str (py "b-base.txt"))].

(** [a.mp3] with "Hello" and [b.mp3] with "World": header, text, divider,
    header, text. *)
Lemma concatenated_file_content_witness :
  exists w',
    _save_concatenated_results (demo_env []) batch_config
                               hello_world_results empty_world
    = (w', inr tt) /\
    files w' (Path_of_str (py "all.txt")) =
    Some (py "=== a.mp3 ===
Hello

==================================================

=== b.mp3 ===
World
").
Proof.
  exact (concatenated_file_content
           (demo_env []) batch_config (py "all.txt") hello_world_results
           empty_world eq_refl eq_refl).
Defined.

Definition silent_result : Result :=
  mkResult [] (py "unknown") (Path_of_str (py "a.mp3"))
           (Path_of_str (py "a-base.txt")).

(** C8.  One result without text, saved in each mode.  In individual mode
    the writer prints the warning and writes nothing.  In concatenated mode
    there is no such test: the writer writes the header of the file and an
    empty line to the output, and prints no warning. *)
Theorem concatenated_writes_empty_transcript :
  save_results (demo_env []) single_config [silent_result] empty_world =
  (mkWorld (fun _ => None) [py "Warning: No text to save for a.mp3"] [] [],
   inr tt)
  /\
  exists w',
    save_results (demo_env []) batch_config [silent_result] empty_world
    = (w', inr tt) /\
    files w' (Path_of_str (py "all.txt")) = Some (py "=== a.mp3 ===

") /\
    stdout w' = [py "Saved concatenated results: all.txt"].
Proof.
  split; [reflexivity|].
  eexists. split; [reflexivity|]. split; reflexivity.
Qed.

(* ===================================================================== *)
(** ** Further properties of the normaliser *)
(* ===================================================================== *)

Lemma transcript_text_lines (out : str) :
  transcript_text out = text_of_lines out.
Proof.
  rewrite transcript_text_eq. unfold retained.
  apply (text_of_lines_strip out).
Qed.

Lemma strip_head (s r : str) (c : char) :
  strip s = c :: r -> isspace c = false.
Proof.
  unfold strip. intros H.
  destruct (rstrip_decomp (lstrip s)) as (w & E & _).
  rewrite H in E. simpl in E. now apply lstrip_head in E.
Qed.

Lemma strip_rev_head (s r : str) (c : char) :
  rev (strip s) = c :: r -> isspace c = false.
Proof.
  unfold strip, rstrip. rewrite rev_involutive. apply lstrip_head.
Qed.

Lemma strip_nil_all_space (s : str) : strip s = [] -> all_space s.
Proof.
  intros H. destruct (strip_decomp s) as (w1 & w2 & E & H1 & H2).
  rewrite H in E. rewrite E. now apply all_space_app.
Qed.

Lemma all_space_strip_nil (s : str) : all_space s -> strip s = [].
Proof.
  intros H. rewrite <- (app_nil_r s). now rewrite strip_lpad.
Qed.

(** X1.  The transcript text never begins or ends with a whitespace character;
    the trailing newline of the process output, in particular, is gone. *)
Theorem transcript_text_no_outer_whitespace :
  forall output_capture : str,
    match transcript_text output_capture with
    | [] => True
    | c :: _ => isspace c = false
    end /\
    match rev (transcript_text output_capture) with
    | [] => True
    | c :: _ => isspace c = false
    end.
Proof.
  intros out. rewrite transcript_text_eq. split.
  - destruct (strip (join NL (retained out))) as [|c r] eqn:E; [exact I|].
    now apply strip_head in E.
  - destruct (rev (strip (join NL (retained out)))) as [|c r] eqn:E;
      [exact I|].
    now apply strip_rev_head in E.
Qed.

Lemma flat_map_nil {A B} (f : A -> list B) (l : list A) :
  flat_map f l = [] <-> forall x, In x l -> f x = [].
Proof.
  induction l as [|a l IH]; cbn [flat_map].
  - split; [intros _ x [] | reflexivity].
  - split.
    + intros H. apply app_eq_nil in H. destruct H as [Ha Hl].
      intros x [<-|Hx]; [exact Ha | now apply IH].
    + intros H. rewrite (H a) by (now left). apply IH.
      intros x Hx. apply H. now right.
Qed.

Lemma keep_nil_iff (line : str) :
  keep line = [] <->
  startswith_any (strip line) log_prefixes = true \/
  strip (hd [] (split line progress_string_marker)) = [].
Proof.
  unfold keep. destruct (startswith_any (strip line) log_prefixes).
  - split; [now left | reflexivity].
  - cbv zeta.
    destruct (strip (hd [] (split line progress_string_marker))) eqn:E;
      cbn [truthy].
    + split; [now right | reflexivity].
    + split; [discriminate | intros [H|H]; discriminate].
Qed.

Lemma join_clean_not_blank (r : str) (rs : list str) :
  clean r -> strip (join NL (r :: rs)) <> [].
Proof.
  intros (_ & _ & Ht) H. apply strip_nil_all_space in H.
  assert (all_space r) as Hr.
  { destruct rs as [|r' rs]; [exact H|].
    rewrite join_cons in H by discriminate.
    apply Forall_app in H. apply H. }
  apply all_space_strip_nil in Hr. rewrite Hr in Ht. discriminate.
Qed.

(** X2.  The transcript text is empty exactly when every line of the output is a
    log line (once trimmed it starts with a log prefix) or is blank before
    its first progress marker. *)
Theorem transcript_text_empty_iff :
  forall output_capture : str,
    transcript_text output_capture = [] <->
    (forall line, In line (split output_capture NL) ->
       startswith_any (strip line) log_prefixes = true \/
       strip (hd [] (split line progress_string_marker)) = []).
Proof.
  intros out. rewrite transcript_text_lines. unfold text_of_lines.
  change NL with [10%N] at 2. rewrite split_single. split.
  - intros H line Hline. apply keep_nil_iff.
    destruct (flat_map keep (split_char 10%N out)) as [|r rs] eqn:E.
    + rewrite flat_map_nil in E. now apply E.
    + exfalso. apply (join_clean_not_blank r rs); [|exact H].
      assert (In r (flat_map keep (split_char 10%N out))) as Hr
        by (rewrite E; now left).
      apply in_flat_map in Hr. destruct Hr as (l & _ & Hl).
      now apply keep_clean in Hl.
  - intros H.
    assert (flat_map keep (split_char 10%N out) = []) as ->.
    { apply flat_map_nil. intros l Hl. apply keep_nil_iff. now apply H. }
    reflexivity.
Qed.

Lemma text_of_lines_join (ls : list str) :
  Forall (fun l => ~ In 10%N l) ls ->
  text_of_lines (join NL ls) = strip (join NL (flat_map keep ls)).
Proof.
  intros H. unfold text_of_lines. destruct ls as [|l ls]; [reflexivity|].
  change NL with [10%N] at 2. rewrite split_char_join;
    [reflexivity | discriminate | exact H].
Qed.

(** X3.  Log lines never influence the transcript: a log line put between the
    lines of an output (or taken out of it) leaves the text as it was. *)
Theorem log_line_does_not_change_text :
  forall (before after : list str) (log_line : str),
    Forall (fun l => contains l NL = false) (before ++ log_line :: after) ->
    startswith_any (strip log_line) log_prefixes = true ->
    transcript_text (join NL (before ++ log_line :: after)) =
    transcript_text (join NL (before ++ after)).
Proof.
  intros before after l Hfree Hlog.
  assert (Forall (fun l => ~ In 10%N l) (before ++ l :: after)) as Hfree'.
  { eapply Forall_impl; [|exact Hfree]. intros a Ha.
    now apply contains_char. }
  rewrite !transcript_text_lines, !text_of_lines_join.
  - rewrite !flat_map_app. cbn [flat_map].
    assert (keep l = []) as -> by (apply keep_nil_iff; now left).
    reflexivity.
  - apply Forall_app in Hfree'. destruct Hfree' as [Hb Ha].
    apply Forall_app. split; [exact Hb | now inversion Ha].
  - exact Hfree'.
Qed.

Lemma log_line_does_not_change_text_witness :
  transcript_text (py " Hello
whisper_print_timings: total = 5 ms
 Bye") = transcript_text (py " Hello
 Bye").
Proof.
  apply (log_line_does_not_change_text
           [py " Hello"] [py " Bye"]
           (py "whisper_print_timings: total = 5 ms")).
  - repeat constructor.
  - reflexivity.
Defined.

Lemma not_in_contains (c : char) (s : str) :
  ~ In c s -> contains s [c] = false.
Proof.
  intros H. destruct (contains s [c]) eqn:E; [|reflexivity].
  apply contains_iff in E. destruct E as (a & b & ->).
  exfalso. apply H. apply in_or_app. right. now left.
Qed.

Lemma in_strip (c : char) (s : str) : In c (strip s) -> In c s.
Proof.
  intros H. destruct (strip_decomp s) as (w1 & w2 & E & _ & _).
  rewrite E. apply in_or_app. right. apply in_or_app. now left.
Qed.

Lemma last_in {A} (l : list A) (d : A) : l <> [] -> In (last l d) l.
Proof.
  induction l as [|a l IH]; [congruence|]. intros _.
  destruct l as [|b l]; [now left|]. right. apply IH. discriminate.
Qed.

Lemma language_loop_free (c : char) (lines : list str) (language : str) :
  ~ In c language ->
  (forall l, In l lines -> ~ In c (strip (last (split l (py ":")) []))) ->
  ~ In c (language_loop lines language).
Proof.
  intros Hlang. induction lines as [|l ls IH]; intros H; [exact Hlang|].
  cbn [language_loop]. destruct (contains (lower l) language_marker).
  - apply H. now left.
  - apply IH. intros l' Hl'. apply H. now right.
Qed.

Lemma split_piece_infix (c : char) (s piece : str) :
  In piece (split s [c]) -> exists a b, s = a ++ piece ++ b.
Proof. rewrite split_single. apply line_infix. Qed.

(** X5.  The detected language never contains a colon or a newline: it is
    "unknown" or the trimmed text after the last colon of one line. *)
Theorem detected_language_no_colon_no_newline :
  forall output_capture : str,
    contains (detected_language output_capture) (py ":") = false /\
    contains (detected_language output_capture) NL = false.
Proof.
  intros out. unfold detected_language. cbv zeta.
  destruct (contains (lower out) language_marker); [|split; reflexivity].
  split.
  - apply (not_in_contains 58%N). apply language_loop_free.
    + cbn. intuition discriminate.
    + intros l _ Hin. apply in_strip in Hin. revert Hin.
      apply (split_char_free 58%N l). change (py ":") with [58%N].
      rewrite split_single. apply last_in. apply split_char_not_nil.
  - apply (not_in_contains 10%N). apply language_loop_free.
    + cbn. intuition discriminate.
    + intros l Hl Hin. apply in_strip in Hin.
      assert (In (last (split l (py ":")) []) (split l (py ":"))) as Hp.
      { change (py ":") with [58%N]. rewrite split_single.
        apply last_in. apply split_char_not_nil. }
      destruct (split_piece_infix 58%N l _ Hp) as (a & b & E).
      change NL with [10%N] in Hl. rewrite split_single in Hl.
      apply (split_char_free 10%N out l Hl). rewrite E.
      apply in_or_app. right. apply in_or_app. now left.
Qed.

(* ===================================================================== *)
(** ** Further properties of the file manager *)
(* ===================================================================== *)

(** An input file passes all four checks. *)
Definition valid_input (env : Env) (file_path : str) : Prop :=
  let path := Path_of_str file_path in
  path_exists env path = true /\
  path_is_file env path = true /\
  existsb (str_eqb (lower (suffix path))) SUPPORTED_EXTENSIONS = true /\
  access_R_OK env path = true.

Lemma validate_one_valid (env : Env) (f : str) (p : Path) :
  validate_one env f = inr p <-> valid_input env f /\ p = Path_of_str f.
Proof.
  unfold validate_one, valid_input. cbv zeta.
  destruct (path_exists env _); cbn [negb];
    [|split; [discriminate | intros [(H & _) _]; discriminate]].
  destruct (path_is_file env _); cbn [negb];
    [|split; [discriminate | intros [(_ & H & _) _]; discriminate]].
  destruct (existsb _ SUPPORTED_EXTENSIONS); cbn [negb];
    [|split; [discriminate | intros [(_ & _ & H & _) _]; discriminate]].
  destruct (access_R_OK env _); cbn [negb];
    [|split; [discriminate | intros [(_ & _ & _ & H) _]; discriminate]].
  split.
  - intros H. injection H as <-. now repeat split.
  - intros [_ ->]. reflexivity.
Qed.

Lemma validate_loop_valid (env : Env) (fs : list str) :
  forall acc ps,
    validate_loop env fs acc = inr ps <->
    Forall (valid_input env) fs /\ ps = acc ++ map Path_of_str fs.
Proof.
  induction fs as [|f fs IH]; intros acc ps; cbn [validate_loop map].
  - rewrite app_nil_r. split.
    + intros H. injection H as <-. split; [constructor | reflexivity].
    + intros [_ ->]. reflexivity.
  - destruct (validate_one env f) as [e|p] eqn:E.
    + split; [discriminate|]. intros [H _]. inversion H as [|? ? Hf _]; subst.
      assert (validate_one env f = inr (Path_of_str f)) as E'
        by (apply validate_one_valid; now split).
      congruence.
    + apply validate_one_valid in E. destruct E as [Hf ->].
      rewrite IH, <- app_assoc. cbn [app]. split.
      * intros [H ->]. split; [now constructor | reflexivity].
      * intros [H ->]. split; [now inversion H | reflexivity].
Qed.

(** X6.  Validation succeeds exactly when every input file passes the four
    checks, and then returns the parsed paths of all of them, one for each
    input, in input order. *)
Theorem validate_input_files_all_or_nothing :
  forall (env : Env) (file_paths : list str) (validated : list Path),
    validate_input_files env file_paths = inr validated <->
    Forall (valid_input env) file_paths /\
    validated = map Path_of_str file_paths.
Proof.
  intros env fs ps. unfold validate_input_files.
  now rewrite validate_loop_valid.
Qed.

Lemma validate_loop_first_invalid (env : Env) (good rest : list str)
    (bad : str) (e : exn) (acc : list Path) :
  Forall (valid_input env) good ->
  validate_one env bad = inl e ->
  validate_loop env (good ++ bad :: rest) acc = inl e.
Proof.
  intros Hgood Hbad. revert acc.
  induction Hgood as [|g good Hg _ IH]; intros acc; cbn [app validate_loop].
  - now rewrite Hbad.
  - assert (validate_one env g = inr (Path_of_str g)) as ->
      by (apply validate_one_valid; now split).
    apply IH.
Qed.

(** X7.  The error of a failed validation is the error of the first invalid
    file in input order; the files after it are not looked at. *)
Theorem validation_reports_first_invalid_file :
  forall (env : Env) (good rest : list str) (bad : str),
    Forall (valid_input env) good ->
    invalid_input env bad ->
    exists e,
      validate_one env bad = inl e /\
      validate_input_files env (good ++ bad :: rest) = inl e.
Proof.
  intros env good rest bad Hgood Hbad.
  destruct (validate_one_invalid env bad Hbad) as (e & He & _).
  exists e. split; [exact He|].
  now apply validate_loop_first_invalid.
Qed.

Lemma validation_reports_first_invalid_file_witness :
  validate_input_files (demo_env [])
    [py "a.mp3"; py "missing.mp3"; py "notes.txt"]
  = inl (FileNotFoundError (py "File not found: missing.mp3")).
Proof.
  destruct (validation_reports_first_invalid_file
              (demo_env []) [py "a.mp3"] [py "notes.txt"] (py "missing.mp3"))
    as (e & He & E).
  - constructor; [|constructor]. repeat split.
  - left. reflexivity.
  - cbn [app] in E. rewrite E. vm_compute in He. injection He as <-.
    reflexivity.
Defined.

Lemma rfind_char_none (c : char) (z : str) :
  ~ In c z -> rfind_char c z = None.
Proof.
  induction z as [|x z IH]; [reflexivity|]. intros H. cbn [rfind_char].
  rewrite IH by (intros Hz; apply H; now right).
  destruct (N.eqb x c) eqn:E; [|reflexivity].
  apply N.eqb_eq in E. subst. exfalso. apply H. now left.
Qed.

Lemma rfind_char_last (c : char) (y z : str) :
  ~ In c z -> rfind_char c (y ++ c :: z) = Some (length y).
Proof.
  intros H. induction y as [|a y IH]; cbn [app rfind_char length].
  - now rewrite rfind_char_none, N.eqb_refl.
  - now rewrite IH.
Qed.

Lemma firstn_length_app {A} (p t : list A) : firstn (length p) (p ++ t) = p.
Proof. induction p; simpl; [reflexivity | now f_equal]. Qed.

Lemma stem_suffix_of_name (r : str) (dirs : list str) (base ext : str) :
  base <> [] -> ext <> [] -> ~ In 46%N ext ->
  stem (mkPath r (dirs ++ [base ++ py "." ++ ext])) = base /\
  suffix (mkPath r (dirs ++ [base ++ py "." ++ ext])) = py "." ++ ext.
Proof.
  intros Hb He Hdot. unfold stem, suffix. rewrite name_last.
  change (py "." ++ ext) with (46%N :: ext).
  rewrite rfind_char_last by assumption.
  assert ((0 <? length base) &&
          (length base <? length (base ++ 46%N :: ext) - 1) = true) as ->.
  { rewrite length_app. cbn [length]. apply andb_true_iff. split.
    - apply Nat.ltb_lt. destruct base; [congruence | cbn; lia].
    - apply Nat.ltb_lt. destruct ext; [congruence | cbn; lia]. }
  split; [apply firstn_length_app | apply skipn_length_app].
Qed.

Lemma str_eqb_false (a b : str) : a <> b -> str_eqb a b = false.
Proof. intros H. unfold str_eqb. now destruct (list_eq_dec N.eq_dec a b). Qed.

Lemma str_eqb_true (a b : str) : str_eqb a b = true -> a = b.
Proof.
  unfold str_eqb. now destruct (list_eq_dec N.eq_dec a b).
Qed.

Lemma tail_Path_of_str (s : str) : tail (Path_of_str s) = components s.
Proof.
  unfold Path_of_str.
  destruct (startswith s (py "///")); [reflexivity|].
  destruct (startswith s (py "//")); [reflexivity|].
  destruct (startswith s (py "/")); reflexivity.
Qed.

(** A text without slash that is neither empty nor "." is one component. *)
Lemma Path_of_str_single (s : str) :
  ~ In 47%N s -> s <> [] -> s <> py "." -> Path_of_str s = mkPath [] [s].
Proof.
  intros Hs Hne Hdot. destruct s as [|c s']; [congruence|].
  assert (N.eqb c 47 = false) as Hc.
  { apply N.eqb_neq. intros ->. apply Hs. now left. }
  assert (components (c :: s') = [c :: s']) as Hcomp.
  { unfold components. change (py "/") with [47%N].
    rewrite split_single, split_char_free_id by assumption.
    cbn [filter truthy andb]. now rewrite str_eqb_false. }
  unfold Path_of_str.
  change (py "///") with [47%N; 47%N; 47%N].
  change (py "//") with [47%N; 47%N]. change (py "/") with [47%N].
  cbn [startswith]. rewrite Hc. cbn [andb]. now rewrite Hcomp.
Qed.

Ltac no_char :=
  repeat match goal with
         | H : In _ (_ ++ _) |- _ => apply in_app_or in H; destruct H as [H|H]
         | H : In _ (py _) |- _ => vm_compute in H; intuition discriminate
         | H : In _ [] |- _ => destruct H
         | H : In ?c ?s, H' : ~ In ?c ?s |- _ => exact (H' H)
         end.

(** X8.  Without an override, an input named [base.ext] in any directory, with
    a model name, maps to [base-model.txt] in the same directory, or to
    [base-model-timestamps.txt] when timestamps are requested. *)
Theorem derived_output_name :
  forall (r : str) (dirs : list str) (base ext m : str) (ts : bool),
    base <> [] -> ~ In 47%N base ->
    ext <> [] -> ~ In 46%N ext ->
    m <> [] -> ~ In 47%N m ->
    generate_output_path (mkPath r (dirs ++ [base ++ py "." ++ ext]))
                         None (Some m) ts
    = inr (mkPath r (dirs ++ [base ++ py "-" ++ m ++
                              (if ts then py "-timestamps" else []) ++
                              py ".txt"])).
Proof.
  intros r dirs base ext m ts Hb Hbs He Hed Hm Hms.
  unfold generate_output_path. cbn [opt_truthy opt_str].
  destruct (stem_suffix_of_name r dirs base ext Hb He Hed) as [-> _].
  rewrite parent_last.
  assert (truthy m = true) as -> by (destruct m; [congruence|reflexivity]).
  assert (forall s, ~ In 47%N s -> s <> [] -> s <> py "." ->
          truediv (mkPath r dirs) s = mkPath r (dirs ++ [s])) as Hdiv.
  { intros s Hs Hne Hdot. unfold truediv. now rewrite Path_of_str_single. }
  assert (forall t, base ++ t <> []) as Hne
    by (intros t; destruct base; [congruence | discriminate]).
  assert (forall t, base ++ py "-" ++ t <> py ".") as Hdot.
  { intros t. destruct base as [|b base]; [congruence|].
    cbn [app]. intros H. injection H as _ H.
    apply app_eq_nil in H. destruct H as [_ H]. discriminate H. }
  destruct ts; cbn [app]; cbv zeta.
  - match goal with
    | |- inr (truediv _ ?s) = _ =>
        replace s with (base ++ py "-" ++ m ++ py "-timestamps" ++ py ".txt")
          by (cbn [join]; now rewrite <- !app_assoc)
    end.
    rewrite Hdiv; [reflexivity | intros H; no_char | apply Hne | apply Hdot].
  - match goal with
    | |- inr (truediv _ ?s) = _ =>
        replace s with (base ++ py "-" ++ m ++ py ".txt")
          by (cbn [join]; now rewrite <- !app_assoc)
    end.
    rewrite Hdiv; [reflexivity | intros H; no_char | apply Hne | apply Hdot].
Qed.

Lemma derived_output_name_witness :
  generate_output_path (Path_of_str (py "talks/Keynote.final.WAV"))
                       None (Some (py "small")) false
  = inr (Path_of_str (py "talks/Keynote.final-small.txt")).
Proof.
  apply (derived_output_name [] [py "talks"] (py "Keynote.final") (py "WAV")
           (py "small") false).
  - discriminate.
  - vm_compute. intuition discriminate.
  - discriminate.
  - vm_compute. intuition discriminate.
  - discriminate.
  - vm_compute. intuition discriminate.
Defined.

Lemma split_char_app_free (c : char) (t : str) :
  ~ In c t -> forall x,
  split_char c (x ++ t) =
  removelast (split_char c x) ++ [last (split_char c x) [] ++ t].
Proof.
  induction t as [|a t IH]; intros Ht x.
  - rewrite !app_nil_r. apply app_removelast_last, split_char_not_nil.
  - replace (x ++ a :: t) with ((x ++ [a]) ++ t)
      by (now rewrite <- app_assoc).
    rewrite IH by (intros H; apply Ht; now right).
    rewrite split_char_snoc.
    assert (N.eqb a c = false) as ->
      by (apply N.eqb_neq; intros ->; apply Ht; now left).
    rewrite removelast_last, last_last. now rewrite <- app_assoc.
Qed.

Lemma txt_component (y : str) :
  truthy (y ++ py ".txt") && negb (str_eqb (y ++ py ".txt") (py ".")) = true.
Proof.
  assert (y ++ py ".txt" <> py ".") as H.
  { destruct y as [|a y]; [discriminate|]. cbn [app]. intros H.
    injection H as _ H. apply app_eq_nil in H. destruct H as [_ H].
    discriminate H. }
  rewrite (str_eqb_false _ _ H). destruct y; reflexivity.
Qed.

Lemma components_txt (x : str) :
  exists cs y, components (x ++ py ".txt") = cs ++ [y ++ py ".txt"].
Proof.
  unfold components. change (py "/") with [47%N].
  rewrite split_single, split_char_app_free
    by (vm_compute; intuition discriminate).
  rewrite filter_app. cbn [filter]. rewrite txt_component.
  eexists. eexists. reflexivity.
Qed.

Lemma name_truediv_txt (q : Path) (x : str) :
  exists y, name (truediv q (x ++ py ".txt")) = y ++ py ".txt".
Proof.
  destruct (components_txt x) as (cs & y & E). exists y.
  unfold truediv, name. destruct (truthy (root (Path_of_str _)));
    cbn [tail]; rewrite tail_Path_of_str, E.
  - apply last_last.
  - rewrite app_assoc. apply last_last.
Qed.

Lemma name_with_suffix_txt (p o : Path) :
  with_suffix p (py ".txt") = inr o -> exists y, name o = y ++ py ".txt".
Proof.
  unfold with_suffix.
  change (contains (py ".txt") (py "/")) with false.
  change ((truthy (py ".txt") && negb (startswith (py ".txt") (py "."))) ||
          str_eqb (py ".txt") (py ".")) with false.
  cbv iota zeta. destruct (negb (truthy (name p))); [discriminate|].
  intros H. injection H as <-. unfold name at 1. cbn [tail].
  rewrite last_last. destruct (negb (truthy (suffix p)));
    eexists; reflexivity.
Qed.

Lemma derived_name_txt (p o : Path) (c m : option str) (ts : bool) :
  opt_truthy c = false ->
  generate_output_path p c m ts = inr o ->
  exists y, name o = y ++ py ".txt".
Proof.
  intros Hc. unfold generate_output_path. rewrite Hc. cbv zeta.
  destruct ((if opt_truthy m then [opt_str m] else []) ++
            (if ts then [py "timestamps"] else [])) as [|s1 ss].
  - apply name_with_suffix_txt.
  - intros H. injection H as <-.
    match goal with
    | |- exists y, name (truediv ?q (?a ++ ?b :: ?x ++ _)) = _ =>
        destruct (name_truediv_txt q (a ++ b :: x)) as [y Hy];
        exists y; rewrite <- Hy; do 2 f_equal; now rewrite <- app_assoc
    end.
Qed.

Lemma txt_name_unsupported (p : Path) (y : str) :
  name p = y ++ py ".txt" ->
  existsb (str_eqb (lower (suffix p))) SUPPORTED_EXTENSIONS = false.
Proof.
  intros H. unfold suffix. rewrite H.
  change (py ".txt") with (46%N :: py "txt").
  rewrite rfind_char_last by (vm_compute; intuition discriminate).
  destruct y as [|a y]; [reflexivity|].
  assert ((0 <? length (a :: y)) &&
          (length (a :: y) <? length ((a :: y) ++ 46%N :: py "txt") - 1)
          = true) as ->.
  { rewrite length_app. apply andb_true_iff.
    split; apply Nat.ltb_lt; cbn; lia. }
  rewrite skipn_length_app. reflexivity.
Qed.

Lemma derived_output_not_validated (env : Env) (f : str) (p q o : Path)
    (c m : option str) (ts : bool) :
  validate_one env f = inr p ->
  opt_truthy c = false ->
  generate_output_path q c m ts = inr o ->
  o <> p.
Proof.
  intros Hv Hc Hg Heq. subst o.
  destruct (derived_name_txt q p c m ts Hc Hg) as [y Hy].
  apply txt_name_unsupported in Hy.
  apply validate_one_valid in Hv. destruct Hv as [(_ & _ & Hs & _) ->].
  congruence.
Qed.

(** X9.  Without an override (none, or the empty string), the output path
    derived for any input is never the path of a validated input file, its
    own included: the derived name ends in ".txt", which is not a supported
    audio extension. *)
Theorem derived_output_differs_from_input :
  forall (env : Env) (file_path : str) (validated_path : Path)
         (input_path output : Path)
         (custom : option str) (model : option str) (ts : bool),
    validate_one env file_path = inr validated_path ->
    opt_truthy custom = false ->
    generate_output_path input_path custom model ts = inr output ->
    output <> validated_path.
Proof.
  intros env f p q o c m ts. apply derived_output_not_validated.
Qed.

Lemma derived_output_differs_from_input_witness :
  Path_of_str (py "talks/speech.mp3.txt") <>
  Path_of_str (py "talks/speech.mp3.ogg").
Proof.
  apply (derived_output_differs_from_input
           (demo_env []) (py "talks/speech.mp3.ogg")
           (Path_of_str (py "talks/speech.mp3.ogg"))
           (Path_of_str (py "talks/speech.mp3.ogg"))
           (Path_of_str (py "talks/speech.mp3.txt")) (Some []) None false);
    reflexivity.
Defined.

(* ===================================================================== *)
(** ** Further properties of [process_files] *)
(* ===================================================================== *)

Section ProcessFilesInversion.

Variable env : Env.
Variable config : TranscriptionConfig.
Variable verbose : bool.

Local Abbreviation ok := (succeeds env config verbose).
Local Abbreviation loop := (process_loop env config verbose).
Local Abbreviation named := (fun p : Path => name p <> []).

Lemma process_loop_inr (ps : list Path) :
  Forall named ps ->
  forall (results rs : list Result) (w w' : World),
    loop ps results w = (w', inr rs) ->
    exists rs',
      rs = results ++ rs' /\
      map input_file rs' = filter ok ps /\
      Forall (result_ok env config verbose) rs' /\
      launched w' = launched w ++ ps /\
      stderr w' =
        stderr w ++ map (error_line env config verbose)
                        (filter (fun p => negb (ok p)) ps) /\
      (batch_mode config = false -> forallb ok ps = true).
Proof.
  induction 1 as [|p ps Hp _ IH]; intros results rs w w';
    cbn [process_loop].
  - unfold ret. intros H. injection H as <- <-. exists [].
    rewrite !app_nil_r. repeat split. constructor.
  - destruct (process_one_run env config verbose p w Hp) as (o & Ho & ->).
    cbn [filter forallb]. destruct (ok p) eqn:Hs; cbn [negb].
    + intros H. apply IH in H.
      destruct H as (rs' & -> & Hmap & Hok & Hl & He & Hb).
      eexists (_ :: rs'). rewrite <- app_assoc. split; [reflexivity|].
      cbn [map input_file]. repeat split.
      * now f_equal.
      * constructor; [|exact Hok]. now repeat split.
      * rewrite Hl. unfold after_launch. cbn [launched].
        now rewrite <- app_assoc.
      * exact He.
      * exact Hb.
    + unfold bind, print_stderr.
      destruct (batch_mode config) eqn:Hb; cbn [negb];
        [|unfold raise; discriminate].
      intros H. apply IH in H.
      destruct H as (rs' & -> & Hmap & Hok & Hl & He & _).
      exists rs'. repeat split; try assumption.
      * rewrite Hl. unfold after_launch. cbn [launched].
        now rewrite <- app_assoc.
      * rewrite He. unfold after_launch, error_line. cbn [stderr map].
        now rewrite <- app_assoc.
      * discriminate.
Qed.

Lemma process_loop_all_ok (ps : list Path) :
  Forall named ps ->
  forallb ok ps = true ->
  forall (results : list Result) (w : World),
  exists rs,
    loop ps results w =
    (mkWorld (files w) (stdout w) (stderr w) (launched w ++ ps),
     inr (results ++ rs)) /\
    map input_file rs = ps /\
    Forall (result_ok env config verbose) rs.
Proof.
  induction 1 as [|p ps Hp _ IH]; intros Hall results w;
    cbn [process_loop].
  - exists []. unfold ret. rewrite !app_nil_r. destruct w.
    repeat split. constructor.
  - cbn [forallb] in Hall. apply andb_true_iff in Hall.
    destruct Hall as [Hs Hall].
    destruct (process_one_run env config verbose p w Hp) as (o & Ho & ->).
    rewrite Hs.
    match goal with
    | |- context [process_loop _ _ _ _ ?r ?w1] =>
        destruct (IH Hall r w1) as (rs & E & Hmap & Hok)
    end.
    eexists (_ :: rs). rewrite E. unfold after_launch.
    cbn [files stdout stderr launched map input_file].
    rewrite <- !app_assoc. repeat split.
    + now f_equal.
    + constructor; [|exact Hok]. now repeat split.
Qed.

End ProcessFilesInversion.

Lemma validated_named (env : Env) (fs : list str) (ps : list Path) :
  validate_input_files env fs = inr ps -> Forall (fun p => name p <> []) ps.
Proof.
  intros H. apply (validate_loop_names env fs [] ps H). constructor.
Qed.

(** X12.  When every transcription succeeds, in batch mode or not, the run
    returns one result for each input file, in input order, and prints
    nothing on stderr. *)
Theorem all_transcriptions_succeed :
  forall (env : Env) (config : TranscriptionConfig) (verbose : bool)
         (input_files : list str) (validated : list Path) (w : World),
    validate_input_files env input_files = inr validated ->
    forallb (succeeds env config verbose) validated = true ->
    exists results,
      process_files env config verbose input_files w =
      (mkWorld (files w) (stdout w) (stderr w) (launched w ++ validated),
       inr results) /\
      map input_file results = validated /\
      Forall (result_ok env config verbose) results.
Proof.
  intros env config verbose fs ps w Hv Hall.
  unfold process_files, bind, lift. rewrite Hv.
  apply (process_loop_all_ok env config verbose ps
           (validated_named env fs ps Hv) Hall [] w).
Qed.

Lemma all_transcriptions_succeed_witness :
  exists results,
    process_files (demo_env []) single_config false three_files empty_world
    = (mkWorld (fun _ => None) [] []
         [Path_of_str (py "a.mp3"); Path_of_str (py "b.mp3");
          Path_of_str (py "c.mp3")],
       inr results) /\
    map text results =
      [py "Hello from a.mp3whisper_full: auto-detected language: en";
       py "Hello from b.mp3whisper_full: auto-detected language: en";
       py "Hello from c.mp3whisper_full: auto-detected language: en"].
Proof.
  destruct (all_transcriptions_succeed
              (demo_env []) single_config false three_files
              [Path_of_str (py "a.mp3"); Path_of_str (py "b.mp3");
               Path_of_str (py "c.mp3")]
              empty_world eq_refl eq_refl) as (results & E & _ & _).
  exists results. split; [exact E|].
  vm_compute in E. injection E as <-. reflexivity.
Defined.

Lemma process_files_results_ok (env : Env) (config : TranscriptionConfig)
    (verbose : bool) (fs : list str) (w w' : World) (results : list Result) :
  process_files env config verbose fs w = (w', inr results) ->
  Forall (result_ok env config verbose) results.
Proof.
  unfold process_files, bind, lift.
  destruct (validate_input_files env fs) as [e|ps] eqn:Hv; [discriminate|].
  intros H. apply process_loop_inr in H; [|now apply validated_named in Hv].
  destruct H as (rs' & -> & _ & Hok & _). exact Hok.
Qed.

(** X13.  Outside batch mode, a non-empty custom output path becomes the output
    path of every result, however many input files there are. *)
Theorem custom_output_shared_by_all_results :
  forall (env : Env) (config : TranscriptionConfig) (verbose : bool)
         (input_files : list str) (c : str) (w w' : World)
         (results : list Result),
    batch_mode config = false ->
    custom_output config = Some c ->
    c <> [] ->
    process_files env config verbose input_files w = (w', inr results) ->
    Forall (fun r => output_file r = Path_of_str c) results.
Proof.
  intros env config verbose fs c w w' results Hb Hc Hne H.
  apply process_files_results_ok in H.
  eapply Forall_impl; [|exact H]. intros r (_ & _ & Ho).
  rewrite Hb, Hc in Ho. cbn [negb] in Ho.
  unfold generate_output_path in Ho. cbn [opt_truthy opt_str] in Ho.
  destruct c; [congruence|]. cbn [truthy] in Ho. now injection Ho.
Qed.

Lemma custom_output_shared_by_all_results_witness :
  exists w' results,
    process_files (demo_env [])
      (mkConfig (py "base") false false (Some (py "out.txt")))
      false three_files empty_world = (w', inr results) /\
    Forall (fun r => output_file r = Path_of_str (py "out.txt")) results.
Proof.
  destruct (process_files (demo_env [])
              (mkConfig (py "base") false false (Some (py "out.txt")))
              false three_files empty_world) as [w' [e|results]] eqn:E.
  - exfalso. vm_compute in E. discriminate E.
  - exists w', results. split; [reflexivity|].
    apply (custom_output_shared_by_all_results
             (demo_env [])
             (mkConfig (py "base") false false (Some (py "out.txt")))
             false three_files (py "out.txt") empty_world w' results
             eq_refl eq_refl);
      [discriminate | exact E].
Defined.

(* ===================================================================== *)
(** ** Further properties of the result writers *)
(* ===================================================================== *)

Lemma save_individual_app (env : Env) (a b : list Result) :
  forall w : World,
    _save_individual_results env (a ++ b) w =
    (_save_individual_results env a ;;; _save_individual_results env b) w.
Proof.
  induction a as [|r a IH]; intros w; cbn [app _save_individual_results].
  - reflexivity.
  - unfold bind at 1 3 4.
    match goal with
    | |- context [try_except ?m ?h w] =>
        destruct (try_except m h w) as [w1 [e|[]]]
    end; [reflexivity|].
    rewrite IH. reflexivity.
Qed.


(** What the individual writer prints for a result. *)
Definition saved_message (r : Result) : str :=
  if truthy (text r) then py "Saved: " ++ str_of_Path (output_file r)
  else py "Warning: No text to save for " ++ str_of_Path (input_file r).

(** The last result with a text whose output path is [p]. *)
Definition last_writer (results : list Result) (p : Path) : option Result :=
  find (fun r => (if Path_eq_dec (output_file r) p then true else false) &&
                 truthy (text r))
       (rev results).

Lemma save_individual_one (env : Env) (r : Result) (w : World) :
  (truthy (text r) = true -> open_error env (output_file r) = None) ->
  exists w',
    _save_individual_results env [r] w = (w', inr tt) /\
    (forall p, files w' p =
               if (if Path_eq_dec (output_file r) p then true else false) &&
                  truthy (text r)
               then Some (text r ++ NL) else files w p) /\
    stdout w' = stdout w ++ [saved_message r] /\
    stderr w' = stderr w /\ launched w' = launched w.
Proof.
  intros Hopen. cbn [_save_individual_results].
  unfold bind, try_except, saved_message.
  destruct (truthy (text r)) eqn:Ht.
  - unfold write_file, print, ret. rewrite (Hopen eq_refl).
    eexists. split; [reflexivity|]. cbn [files stdout stderr launched].
    repeat split. intros p.
    destruct (Path_eq_dec p (output_file r)) as [->|Hne].
    + destruct (Path_eq_dec (output_file r) (output_file r));
        [reflexivity | congruence].
    + destruct (Path_eq_dec (output_file r) p); [congruence | reflexivity].
  - unfold print, ret. eexists. split; [reflexivity|].
    cbn [files stdout stderr launched]. repeat split.
    intros p. now rewrite andb_false_r.
Qed.

Lemma save_individual_final :
  forall (env : Env) (results : list Result) (w : World),
    (forall r, In r results -> truthy (text r) = true ->
               open_error env (output_file r) = None) ->
    exists w',
      _save_individual_results env results w = (w', inr tt) /\
      (forall p, files w' p =
                 match last_writer results p with
                 | Some r => Some (text r ++ NL)
                 | None => files w p
                 end) /\
      stdout w' = stdout w ++ map saved_message results.
Proof.
  intros env results. induction results as [|r rs IH] using rev_ind;
    intros w Hopen.
  - exists w. cbn. rewrite app_nil_r. repeat split.
  - destruct (IH w) as (w1 & E1 & Hf1 & Hs1).
    { intros x Hx. apply Hopen. apply in_or_app. now left. }
    destruct (save_individual_one env r w1) as (w2 & E2 & Hf2 & Hs2 & _).
    { apply Hopen. apply in_or_app. right. now left. }
    exists w2. rewrite save_individual_app. unfold bind. rewrite E1.
    split; [exact E2|]. split.
    + intros p. rewrite Hf2. unfold last_writer. rewrite rev_app_distr.
      cbn [rev app find].
      destruct ((if Path_eq_dec (output_file r) p then true else false) &&
                truthy (text r)); [reflexivity|]. apply Hf1.
    + rewrite Hs2, Hs1, map_app. cbn [map]. now rewrite <- app_assoc.
Qed.

(** X15.  When every output file that is needed can be opened, the individual
    writer succeeds, prints one line for each result in order, and leaves
    in each file the text of the last result written to it: an earlier
    result with the same output path is overwritten. *)
Theorem individual_writer_last_write_wins :
  forall (env : Env) (results : list Result) (w : World),
    (forall r, In r results -> truthy (text r) = true ->
               open_error env (output_file r) = None) ->
    exists w',
      _save_individual_results env results w = (w', inr tt) /\
      (forall p, files w' p =
                 match last_writer results p with
                 | Some r => Some (text r ++ NL)
                 | None => files w p
                 end) /\
      stdout w' = stdout w ++ map saved_message results.
Proof. exact save_individual_final. Qed.

Lemma individual_writer_last_write_wins_witness :
  exists w',
    _save_individual_results (demo_env [])
      [mkResult (py "first") (py "en") (Path_of_str (py "a.mp3"))
                (Path_of_str (py "out.txt"));
       mkResult (py "second") (py "en") (Path_of_str (py "b.mp3"))
                (Path_of_str (py "out.txt"))]
      empty_world = (w', inr tt) /\
    files w' (Path_of_str (py "out.txt")) = Some (py "second
") /\
    stdout w' = [py "Saved: out.txt"; py "Saved: out.txt"].
Proof.
  destruct (individual_writer_last_write_wins (demo_env [])
              [mkResult (py "first") (py "en") (Path_of_str (py "a.mp3"))
                        (Path_of_str (py "out.txt"));
               mkResult (py "second") (py "en") (Path_of_str (py "b.mp3"))
                        (Path_of_str (py "out.txt"))]
              empty_world) as (w' & E & Hf & Hs).
  - intros r _ _. reflexivity.
  - exists w'. split; [exact E|]. split.
    + rewrite Hf. reflexivity.
    + rewrite Hs. reflexivity.
Defined.

(** X16.  The individual writer stops at the first output file that cannot be
    opened: the results before it are saved, the error names the file, and
    nothing is done for the results after it. *)
Theorem individual_writer_stops_at_failure :
  forall (env : Env) (before after : list Result) (r : Result) (msg : str)
         (w w1 : World),
    _save_individual_results env before w = (w1, inr tt) ->
    truthy (text r) = true ->
    open_error env (output_file r) = Some msg ->
    _save_individual_results env (before ++ r :: after) w =
    (w1, inl (TranscriptionError
                (py "Failed to save " ++ str_of_Path (output_file r) ++
                 py ": " ++ msg))).
Proof.
  intros env before after r msg w w1 Hb Ht Ho.
  rewrite save_individual_app. unfold bind at 1. rewrite Hb.
  cbn [_save_individual_results]. unfold bind, try_except, write_file, raise.
  rewrite Ht, Ho. reflexivity.
Qed.

(** A machine where every file can be read and transcribed, but the file
    named [locked] cannot be opened for writing. *)
Definition locked_env (locked : str) : Env :=
  mkEnv (fun _ => true) (fun _ => true) (fun _ => true)
        (fun p _ _ => mkCompleted 0 (py " Hello from " ++ name p) [])
        (fun p => if str_eqb (name p) locked
                  then Some (py "[Errno 13] Permission denied")
                  else None).

Lemma individual_writer_stops_at_failure_witness :
  exists w1,
    _save_individual_results (locked_env (py "b.txt"))
      [mkResult (py "one") (py "en") (Path_of_str (py "a.mp3"))
                (Path_of_str (py "a.txt"));
       mkResult (py "two") (py "en") (Path_of_str (py "b.mp3"))
                (Path_of_str (py "b.txt"));
       mkResult (py "three") (py "en") (Path_of_str (py "c.mp3"))
                (Path_of_str (py "c.txt"))]
      empty_world =
    (w1, inl (TranscriptionError
                (py "Failed to save b.txt: [Errno 13] Permission denied"))) /\
    files w1 (Path_of_str (py "a.txt")) = Some (py "one
") /\
    files w1 (Path_of_str (py "c.txt")) = None.
Proof.
  eexists. split.
  - apply (individual_writer_stops_at_failure (locked_env (py "b.txt"))
             [mkResult (py "one") (py "en") (Path_of_str (py "a.mp3"))
                       (Path_of_str (py "a.txt"))]
             [mkResult (py "three") (py "en") (Path_of_str (py "c.mp3"))
                       (Path_of_str (py "c.txt"))]
             (mkResult (py "two") (py "en") (Path_of_str (py "b.mp3"))
                       (Path_of_str (py "b.txt")))
             (py "[Errno 13] Permission denied") empty_world);
      reflexivity.
  - split; reflexivity.
Defined.

Lemma write_file_frame (env : Env) (path : Path) (content : str)
    (w w' : World) (out : exn + unit) (p : Path) :
  write_file env path content w = (w', out) ->
  p <> path -> files w' p = files w p.
Proof.
  unfold write_file. destruct (open_error env path).
  - intros H. now injection H as <- _.
  - intros H Hne. injection H as <- _. cbn [files].
    destruct (Path_eq_dec p path); [congruence | reflexivity].
Qed.

Lemma individual_frame (env : Env) (results : list Result) :
  forall (w w' : World) (out : exn + unit) (p : Path),
    _save_individual_results env results w = (w', out) ->
    ~ In p (map output_file results) ->
    files w' p = files w p.
Proof.
  induction results as [|r rs IH]; intros w w' out p;
    cbn [_save_individual_results map].
  - unfold ret. intros H. now injection H as <- _.
  - intros H Hp. unfold bind, try_except in H.
    assert (p <> output_file r) as Hne by (intros ->; apply Hp; now left).
    assert (~ In p (map output_file rs)) as Hrs
      by (intros Hin; apply Hp; now right).
    destruct (truthy (text r)).
    + destruct (write_file env (output_file r) (text r ++ NL) w)
        as [w1 [e|[]]] eqn:Ew.
      * unfold raise in H. assert (w1 = w') as <- by congruence.
        exact (write_file_frame _ _ _ _ _ _ p Ew Hne).
      * unfold print in H. apply (IH _ _ _ p) in H; [|exact Hrs].
        cbn [files] in H. rewrite H.
        exact (write_file_frame _ _ _ _ _ _ p Ew Hne).
    + unfold print in H. apply (IH _ _ _ p) in H; [|exact Hrs].
      exact H.
Qed.

Lemma concatenated_frame (env : Env) (config : TranscriptionConfig)
    (results : list Result) (w w' : World) (out : exn + unit) (p : Path) :
  _save_concatenated_results env config results w = (w', out) ->
  (forall c, custom_output config = Some c -> p <> Path_of_str c) ->
  files w' p = files w p.
Proof.
  unfold _save_concatenated_results.
  destruct (custom_output config) as [c|].
  - intros H Hp. specialize (Hp c eq_refl). unfold try_except, bind in H.
    destruct (write_file env (Path_of_str c) _ w) as [w1 [e|[]]] eqn:Ew.
    + unfold raise in H. assert (w1 = w') as <- by congruence.
      exact (write_file_frame _ _ _ _ _ _ p Ew Hp).
    + unfold print in H. assert (files w' = files w1) as ->
        by (injection H as <- _; reflexivity).
      exact (write_file_frame _ _ _ _ _ _ p Ew Hp).
  - unfold raise. intros H _. now injection H as <- _.
Qed.

Lemma save_results_frame :
  forall (env : Env) (config : TranscriptionConfig) (results : list Result)
         (w w' : World) (out : exn + unit) (p : Path),
    save_results env config results w = (w', out) ->
    ~ In p (map output_file results) ->
    (forall c, custom_output config = Some c -> p <> Path_of_str c) ->
    files w' p = files w p.
Proof.
  intros env config results w w' out p. unfold save_results.
  destruct results as [|r rs].
  - unfold print. intros H _ _. now injection H as <- _.
  - unfold try_except.
    destruct (batch_mode config && opt_truthy (custom_output config)).
    + destruct (_save_concatenated_results env config (r :: rs) w)
        as [w1 [e|[]]] eqn:E; unfold raise; intros H _ Hc;
        assert (w1 = w') as <- by congruence;
        exact (concatenated_frame _ _ _ _ _ _ p E Hc).
    + destruct (_save_individual_results env (r :: rs) w)
        as [w1 [e|[]]] eqn:E; unfold raise; intros H Hp _;
        assert (w1 = w') as <- by congruence;
        exact (individual_frame _ _ _ _ _ p E Hp).
Qed.

(** X17.  Saving touches no file other than the output paths of the results and
    the custom output path of the configuration. *)
Theorem save_results_touches_only_outputs :
  forall (env : Env) (config : TranscriptionConfig) (results : list Result)
         (w w' : World) (out : exn + unit) (p : Path),
    save_results env config results w = (w', out) ->
    ~ In p (map output_file results) ->
    (forall c, custom_output config = Some c -> p <> Path_of_str c) ->
    files w' p = files w p.
Proof. exact save_results_frame. Qed.

(** A world where [a.mp3] already holds audio data. *)
Definition audio_world : World :=
  mkWorld (fun p => if Path_eq_dec p (Path_of_str (py "a.mp3"))
                    then Some (py "RIFF") else None) [] [] [].

Lemma save_results_touches_only_outputs_witness :
  files (fst (save_results (demo_env []) single_config hello_world_results
                audio_world))
        (Path_of_str (py "a.mp3")) = Some (py "RIFF").
Proof.
  destruct (save_results (demo_env []) single_config hello_world_results
              audio_world) as [w' out] eqn:E.
  cbn [fst].
  rewrite (save_results_touches_only_outputs
             (demo_env []) single_config hello_world_results audio_world
             w' out (Path_of_str (py "a.mp3")) E).
  - reflexivity.
  - vm_compute. intuition discriminate.
  - intros c Hc. discriminate Hc.
Defined.

(* ===================================================================== *)
(** ** A whole run: [process_files], then [save_results] *)
(* ===================================================================== *)

(** What the example functions of [example_usage.py] do inside their
    [try] block, without the messages they print. *)
Definition transcribe_and_save (env : Env) (config : TranscriptionConfig)
    (verbose : bool) (audio_files : list str) : M unit :=
  results <- process_files env config verbose audio_files ;;
  save_results env config results.




(* ===================================================================== *)
(** ** Start-up: [WhisperCppTranscriber.__init__] *)
(* ===================================================================== *)

(** The disk as the start-up code sees and changes it: what is at a path, a
    directory or a file.  The contents of files play no part here. *)
Inductive node : Type := Dir | File.

Definition Disk : Type := Path -> option node.

Definition disk_set (d : Disk) (p : Path) (n : node) : Disk :=
  fun q => if Path_eq_dec q p then Some n else d q.

(** [p.exists()] and [p.is_file()] *)
Definition disk_exists (d : Disk) (p : Path) : bool :=
  match d p with Some _ => true | None => false end.

Definition disk_is_file (d : Disk) (p : Path) : bool :=
  match d p with Some File => true | _ => false end.

(** What running the download script does: it cannot be started
    ([OSError]), or it exits with a status, leaving the disk in some state;
    [str_e] is the text of the [CalledProcessError] for a non-zero
    status. *)
Inductive ScriptOutcome : Type :=
| ScriptNotStarted (msg : str)
| ScriptExited (status : Z) (str_e : str) (after : Disk).

(** The programs the start-up code runs: [None] stands for
    [FileNotFoundError], the program is not installed. *)
Record Host : Type := mkHost {
  which_whisper_cli : option Completed;     (* which whisper-cli *)
  nvidia_smi : option Completed;            (* nvidia-smi *)
  download_model : Disk -> str -> ScriptOutcome
}.

(** The disk, and the model names a download was started for. *)
Record InitState : Type := mkInit { disk : Disk; downloads : list str }.

Definition possible_paths : list Path :=
  [Path_of_str (py "./whisper.cpp/build/bin/whisper-cli");
   Path_of_str (py "./build/bin/whisper-cli");
   Path_of_str (py "./whisper-cli");
   Path_of_str (py "/usr/local/bin/whisper-cli")].

Definition _find_whisper_cpp (host : Host) (d : Disk) : exn + Path :=
  match find (fun path => disk_exists d path && disk_is_file d path)
             possible_paths with
  | Some path => inr path
  | None =>
      match which_whisper_cli host with
      | None =>
          inl (FileNotFoundError
                 (py "[Errno 2] No such file or directory: 'which'"))
      | Some result =>
          if Z.eqb (returncode result) 0
          then inr (Path_of_str (strip (proc_stdout result)))
          else inl (TranscriptionError
                      (py "whisper-cli not found. Please run setup.sh or colab_setup.sh first."))
      end
  end.

Record Capabilities : Type :=
  mkCapabilities { cuda : bool; vulkan : bool; opencl : bool }.

Definition _detect_gpu_capabilities (host : Host) : Capabilities :=
  mkCapabilities
    (match nvidia_smi host with
     | Some result => Z.eqb (returncode result) 0
     | None => false
     end)
    false false.

(** [p.mkdir(exist_ok=True)]; a path without parent component lies in the
    working directory or at the root, which exist. *)
Definition mkdir_exist_ok (d : Disk) (p : Path) : exn + Disk :=
  match d p with
  | Some Dir => inr d
  | Some File => inl (OSError (py "[Errno 17] File exists"))
  | None =>
      match tail (parent p) with
      | [] => inr (disk_set d p Dir)
      | _ :: _ =>
          match d (parent p) with
          | Some Dir => inr (disk_set d p Dir)
          | _ => inl (FileNotFoundError
                        (py "[Errno 2] No such file or directory"))
          end
      end
  end.

(** [script_path.write_text(...)] followed by [chmod]. *)
Definition _create_download_script (env : Env) (d : Disk)
    (script_path : Path) : exn + Disk :=
  match open_error env script_path with
  | Some msg => inl (OSError msg)
  | None => inr (disk_set d script_path File)
  end.

Definition model_file_of (model_name : str) : Path :=
  truediv (Path_of_str (py "./models"))
          (py "ggml-" ++ model_name ++ py ".bin").

Definition _ensure_model_exists (host : Host) (env : Env) (model_name : str)
    (s : InitState) : InitState * (exn + Path) :=
  let model_dir := Path_of_str (py "./models") in
  let model_file := model_file_of model_name in
  if disk_exists (disk s) model_file then (s, inr model_file)
  else
    match mkdir_exist_ok (disk s) model_dir with
    | inl e => (s, inl e)
    | inr d1 =>
        let download_script :=
          Path_of_str (py "./models/download-ggml-model.sh") in
        match
          (if negb (disk_exists d1 download_script)
           then _create_download_script env d1 download_script
           else inr d1)
        with
        | inl e => (mkInit d1 (downloads s), inl e)
        | inr d2 =>
            match download_model host d2 model_name with
            | ScriptNotStarted msg =>
                (mkInit d2 (downloads s), inl (OSError msg))
            | ScriptExited status str_e d3 =>
                let s3 := mkInit d3 (downloads s ++ [model_name]) in
                if negb (Z.eqb status 0)
                then (s3, inl (TranscriptionError
                                 (py "Failed to download model " ++
                                  model_name ++ py ": " ++ str_e)))
                else if negb (disk_exists d3 model_file)
                then (s3, inl (TranscriptionError
                                 (py "Model file not found after download: "
                                  ++ str_of_Path model_file)))
                else (s3, inr model_file)
            end
        end
    end.

(** What the constructor keeps. *)
Record Transcriber : Type := mkTranscriber {
  whisper_cpp_path : Path;
  model_path : Path;
  gpu_capabilities : Capabilities
}.

(** [WhisperCppTranscriber.__init__], without its message on stdout. *)
Definition WhisperCppTranscriber_init (host : Host) (env : Env)
    (model_name : str) (s : InitState) : InitState * (exn + Transcriber) :=
  match _find_whisper_cpp host (disk s) with
  | inl e => (s, inl e)
  | inr exe =>
      match _ensure_model_exists host env model_name s with
      | (s', inl e) => (s', inl e)
      | (s', inr model) =>
          (s', inr (mkTranscriber exe model (_detect_gpu_capabilities host)))
      end
  end.

(* ===================================================================== *)
(** ** [main] *)
(* ===================================================================== *)

(** The parsed command line. *)
Record Args : Type := mkArgs {
  arg_files : list str;
  arg_model : str;
  arg_output : option str;
  arg_timestamps : bool;
  arg_batch : bool;
  arg_verbose : bool
}.

Definition report (e : exn) (w : World) : World :=
  mkWorld (files w) (stdout w)
          (stderr w ++ [py "Error: " ++ str_of_exn e]) (launched w).

(** [main] from the point where [parser.parse_args()] has returned the
    parsed arguments, to the exit status (0 when it returns, 1 for
    [sys.exit(1)]).  A command line with [--help], or one that the parser
    refuses, ends the program inside [parse_args] and never reaches this
    point.  The messages of [main] on stdout are left out, and so is the
    keyboard interrupt.

    Two views of the file system are threaded: [InitState] holds what the
    start-up code finds and creates (the [models] directory, the download
    script, the model file), [World] holds what the result writer writes.
    [files] of the world therefore says nothing about the files that
    start-up creates. *)
Definition main (host : Host) (env : Env) (args : Args)
    (s : InitState) (w : World) : InitState * World * Z :=
  let config := mkConfig (arg_model args) (arg_timestamps args)
                         (arg_batch args) (arg_output args) in
  if arg_batch args && negb (opt_truthy (arg_output args))
  then (s, w, 1%Z)
  else
    match WhisperCppTranscriber_init host env (model_name config) s with
    | (s1, inl e) => (s1, report e w, 1%Z)
    | (s1, inr _) =>
        match process_files env config (arg_verbose args) (arg_files args) w
        with
        | (w1, inl e) => (s1, report e w1, 1%Z)
        | (w1, inr []) => (s1, w1, 1%Z)
        | (w1, inr (r :: rs)) =>
            match save_results env config (r :: rs) w1 with
            | (w2, inl e) => (s1, report e w2, 1%Z)
            | (w2, inr _) => (s1, w2, 0%Z)
            end
        end
    end.

(* ===================================================================== *)
(** ** Properties of the start-up code *)
(* ===================================================================== *)




(** A machine with nothing on its disk but an installed whisper-cli in
    /usr/local/bin, whose download script fetches the model. *)
Definition installed_disk : Disk :=
  disk_set (fun _ => None) (Path_of_str (py "/usr/local/bin/whisper-cli"))
           File.

Definition demo_host : Host :=
  mkHost None None
         (fun d model => ScriptExited 0 [] (disk_set d (model_file_of model) File)).


(** X22.  Whenever [_ensure_model_exists] returns, what it returns is the path
    [models/ggml-<name>.bin], and a file or directory exists there on the
    disk it leaves, whatever the download script did. *)
Theorem ensured_model_exists :
  forall (host : Host) (env : Env) (model_name : str) (s s' : InitState)
         (model : Path),
    _ensure_model_exists host env model_name s = (s', inr model) ->
    model = model_file_of model_name /\
    disk_exists (disk s') model = true.
Proof.
  intros host env name s s' model. unfold _ensure_model_exists. cbv zeta.
  destruct (disk_exists (disk s) (model_file_of name)) eqn:E0.
  - intros H. injection H as <- <-. now split.
  - destruct (mkdir_exist_ok (disk s) _) as [e|d1]; [discriminate|].
    destruct (if negb (disk_exists d1 _) then _ else _) as [e|d2];
      [discriminate|].
    destruct (download_model host d2 name) as [msg|status str_e d3];
      [discriminate|].
    destruct (Z.eqb status 0); cbn [negb]; [|discriminate].
    destruct (disk_exists d3 (model_file_of name)) eqn:E3; cbn [negb];
      [|discriminate].
    intros H. injection H as <- <-. now split.
Qed.

Lemma ensured_model_exists_witness :
  disk_exists
    (disk (fst (_ensure_model_exists demo_host (demo_env []) (py "base")
                  (mkInit installed_disk []))))
    (Path_of_str (py "models/ggml-base.bin")) = true.
Proof.
  destruct (_ensure_model_exists demo_host (demo_env []) (py "base")
              (mkInit installed_disk [])) as [s' [e|model]] eqn:E.
  - exfalso. vm_compute in E. discriminate E.
  - destruct (ensured_model_exists _ _ _ _ _ _ E) as [-> H]. exact H.
Defined.

(** X23.  A download is started only when the model file is missing, and at most
    once; when the model file is there, nothing on the disk is touched. *)
Theorem model_downloaded_only_when_missing :
  forall (host : Host) (env : Env) (model_name : str) (s s' : InitState)
         (out : exn + Path),
    _ensure_model_exists host env model_name s = (s', out) ->
    (disk_exists (disk s) (model_file_of model_name) = true ->
     s' = s /\ out = inr (model_file_of model_name)) /\
    (downloads s' = downloads s \/
     (disk_exists (disk s) (model_file_of model_name) = false /\
      downloads s' = downloads s ++ [model_name])).
Proof.
  intros host env name s s' out. unfold _ensure_model_exists. cbv zeta.
  destruct (disk_exists (disk s) (model_file_of name)) eqn:E0.
  - intros H. injection H as <- <-. split; [now split | now left].
  - intros H. split; [discriminate|].
    destruct (mkdir_exist_ok (disk s) _) as [e|d1].
    { injection H as <- _. now left. }
    destruct (if negb (disk_exists d1 _) then _ else _) as [e|d2].
    { injection H as <- _. now left. }
    destruct (download_model host d2 name) as [msg|status str_e d3].
    { injection H as <- _. now left. }
    right. split; [reflexivity|].
    destruct (negb (Z.eqb status 0)); [now injection H as <- _|].
    destruct (negb (disk_exists d3 (model_file_of name)));
      now injection H as <- _.
Qed.

Lemma model_downloaded_only_when_missing_witness :
  downloads (fst (_ensure_model_exists demo_host (demo_env []) (py "base")
                    (mkInit installed_disk []))) = [] \/
  downloads (fst (_ensure_model_exists demo_host (demo_env []) (py "base")
                    (mkInit installed_disk []))) = [py "base"].
Proof.
  destruct (_ensure_model_exists demo_host (demo_env []) (py "base")
              (mkInit installed_disk [])) as [s' out] eqn:E.
  destruct (model_downloaded_only_when_missing _ _ _ _ _ _ E)
    as [_ [H|[_ H]]]; cbn [fst]; [left | right]; exact H.
Defined.

(* ===================================================================== *)
(** ** Properties of [main] *)
(* ===================================================================== *)

Definition config_of (args : Args) : TranscriptionConfig :=
  mkConfig (arg_model args) (arg_timestamps args) (arg_batch args)
           (arg_output args).

Lemma process_files_inr (env : Env) (config : TranscriptionConfig)
    (verbose : bool) (fs : list str) (w w' : World) (results : list Result) :
  process_files env config verbose fs w = (w', inr results) ->
  exists validated,
    validate_input_files env fs = inr validated /\
    map input_file results = filter (succeeds env config verbose) validated.
Proof.
  unfold process_files, bind, lift.
  destruct (validate_input_files env fs) as [e|ps] eqn:Hv; [discriminate|].
  intros H. apply process_loop_inr in H; [|now apply validated_named in Hv].
  destruct H as (rs' & -> & Hmap & _). exists ps. now split.
Qed.

(** X24.  Once the command line has been parsed, exit status 0 means that
    the engine exited with status 0 for at least one validated input file,
    and that batch mode, if asked for, came with an output path.  (The
    exits of [parse_args] itself, status 0 for [--help] among them, come
    before the part of [main] that is modelled.) *)
Theorem exit_status_zero_means_a_transcript :
  forall (host : Host) (env : Env) (args : Args) (s s' : InitState)
         (w w' : World),
    main host env args s w = (s', w', 0%Z) ->
    (arg_batch args = true -> opt_truthy (arg_output args) = true) /\
    exists validated p,
      validate_input_files env (arg_files args) = inr validated /\
      In p validated /\
      succeeds env (config_of args) (arg_verbose args) p = true.
Proof.
  intros host env args s s' w w'. unfold main. cbv zeta.
  fold (config_of args).
  destruct (arg_batch args && negb (opt_truthy (arg_output args))) eqn:G;
    [discriminate|].
  destruct (WhisperCppTranscriber_init host env _ s) as [s1 [e|t]];
    [discriminate|].
  destruct (process_files env (config_of args) (arg_verbose args)
              (arg_files args) w) as [w1 [e|[|r rs]]] eqn:P;
    [discriminate | discriminate |].
  intros _. split.
  - intros Hb. rewrite Hb in G. cbn [andb] in G.
    now apply negb_false_iff in G.
  - apply process_files_inr in P. destruct P as (ps & Hv & Hmap).
    exists ps, (input_file r). split; [exact Hv|].
    apply filter_In. rewrite <- Hmap. now left.
Qed.

(** The start-up state and arguments of a run that finds whisper-cli
    installed and downloads the model. *)
Definition fresh_install : InitState := mkInit installed_disk [].

Definition args_for (files : list str) (output : option str) (batch : bool)
  : Args := mkArgs files (py "base") output false batch false.

Lemma exit_status_zero_means_a_transcript_witness :
  exists validated p,
    validate_input_files (demo_env (py "b.mp3")) three_files = inr validated /\
    In p validated /\
    succeeds (demo_env (py "b.mp3"))
             (config_of (args_for three_files (Some (py "all.txt")) true))
             false p = true.
Proof.
  destruct (main demo_host (demo_env (py "b.mp3"))
              (args_for three_files (Some (py "all.txt")) true)
              fresh_install empty_world) as [[s' w'] code] eqn:E.
  assert (code = 0%Z) as -> by (vm_compute in E; now injection E as _ _ <-).
  exact (proj2 (exit_status_zero_means_a_transcript _ _ _ _ _ _ _ E)).
Defined.







(* ===================================================================== *)
(** ** Two more properties of a run *)
(* ===================================================================== *)

(** X4.  Whitespace around the process output does not matter: blank lines and
    blanks before the first and after the last line leave the transcript
    text unchanged. *)
Theorem surrounding_whitespace_is_ignored :
  forall (before output_capture after : str),
    forallb isspace before = true ->
    forallb isspace after = true ->
    transcript_text (before ++ output_capture ++ after) =
    transcript_text output_capture.
Proof.
  intros w1 out w2 H1 H2. rewrite !transcript_text_lines.
  rewrite forallb_forall in H1, H2.
  rewrite text_of_lines_lpad by (apply Forall_forall; exact H1).
  apply text_of_lines_rpad. apply Forall_forall. exact H2.
Qed.

Lemma surrounding_whitespace_is_ignored_witness :
  transcript_text (py "

   Hello
 Bye
  
") = transcript_text (py "Hello
 Bye").
Proof.
  apply (surrounding_whitespace_is_ignored (py "

   ") (py "Hello
 Bye") (py "
  
")); reflexivity.
Defined.

Lemma validated_each (env : Env) (fs : list str) (ps : list Path) (p : Path) :
  validate_input_files env fs = inr ps -> In p ps ->
  exists f, validate_one env f = inr p.
Proof.
  intros Hv Hp. apply validate_loop_valid in Hv. destruct Hv as [Hall ->].
  cbn [app] in Hp. apply in_map_iff in Hp. destruct Hp as (f & <- & Hf).
  exists f. apply validate_one_valid. split; [|reflexivity].
  rewrite Forall_forall in Hall. now apply Hall.
Qed.

Lemma process_one_files (env : Env) (config : TranscriptionConfig)
    (verbose : bool) (p : Path) (w w' : World) (out : exn + Result) :
  process_one env config verbose p w = (w', out) -> files w' = files w.
Proof.
  unfold process_one, transcribe_file, bind, launch, lift, ret, raise.
  cbv zeta. destruct (negb (Z.eqb _ 0)).
  - intros H. now injection H as <- _.
  - destruct (generate_output_path _ _ _ _); intros H;
      now injection H as <- _.
Qed.

Lemma process_loop_files (env : Env) (config : TranscriptionConfig)
    (verbose : bool) (ps : list Path) :
  forall (results : list Result) (w w' : World) (out : exn + list Result),
    process_loop env config verbose ps results w = (w', out) ->
    files w' = files w.
Proof.
  induction ps as [|p ps IH]; intros results w w' out; cbn [process_loop].
  - unfold ret. intros H. now injection H as <- _.
  - destruct (process_one env config verbose p w) as [w1 [e|r]] eqn:P1;
      apply process_one_files in P1.
    + destruct e; try (intros H; injection H as <- _; exact P1).
      unfold bind, print_stderr. destruct (negb (batch_mode config)).
      * unfold raise. intros H. injection H as <- _. exact P1.
      * intros H. apply IH in H. cbn [files] in H. congruence.
    + intros H. apply IH in H. congruence.
Qed.

(** X20.  A run outside batch mode and without a custom output path never
    writes to one of its validated input files: whatever happens, what the
    result writer leaves at the path of each input is what was there. *)
Theorem inputs_are_never_written :
  forall (env : Env) (config : TranscriptionConfig) (verbose : bool)
         (audio_files : list str) (validated : list Path)
         (w w' : World) (out : exn + unit) (p : Path),
    batch_mode config = false ->
    opt_truthy (custom_output config) = false ->
    validate_input_files env audio_files = inr validated ->
    In p validated ->
    transcribe_and_save env config verbose audio_files w = (w', out) ->
    files w' p = files w p.
Proof.
  intros env config verbose fs ps w w' out p Hb Hc Hv Hp.
  destruct (validated_each env fs ps p Hv Hp) as [f Hf].
  unfold transcribe_and_save, bind.
  destruct (process_files env config verbose fs w) as [w1 [e|results]] eqn:P.
  - intros H. injection H as <- _.
    unfold process_files, bind, lift in P. rewrite Hv in P.
    apply process_loop_files in P. now rewrite P.
  - intros H.
    assert (files w1 = files w) as <-.
    { unfold process_files, bind, lift in P. rewrite Hv in P.
      now apply process_loop_files in P. }
    apply (save_results_frame env config results w1 w' out p H).
    + intros Hin. apply in_map_iff in Hin. destruct Hin as (r & Hr & Hin).
      apply process_files_results_ok in P. rewrite Forall_forall in P.
      destruct (P r Hin) as (_ & _ & Ho). rewrite Hb in Ho. cbn [negb] in Ho.
      exact (derived_output_not_validated env f p _ _ _ _ _ Hf Hc Ho Hr).
    + intros c Hcfg ->. rewrite Hcfg in Hc. cbn [opt_truthy] in Hc.
      destruct c; [|discriminate].
      apply validate_one_name in Hf. now apply Hf.
Qed.

Lemma inputs_are_never_written_witness :
  files (fst (transcribe_and_save (demo_env (py "b.mp3")) single_config false
                three_files audio_world))
        (Path_of_str (py "a.mp3")) = Some (py "RIFF").
Proof.
  destruct (transcribe_and_save (demo_env (py "b.mp3")) single_config false
              three_files audio_world) as [w' out] eqn:E.
  cbn [fst].
  rewrite (inputs_are_never_written
             (demo_env (py "b.mp3")) single_config false three_files
             [Path_of_str (py "a.mp3"); Path_of_str (py "b.mp3");
              Path_of_str (py "c.mp3")]
             audio_world w' out (Path_of_str (py "a.mp3"))
             eq_refl eq_refl eq_refl (or_introl eq_refl) E).
  reflexivity.
Defined.
